(** * datatable.js: the sortable table component and its formatters

    A shallow embedding of [src/datatable.js].  JavaScript strings are
    sequences of UTF-16 code units, numbers are binary64 floats, the
    module-level locale cache and the component are threaded as explicit
    state, and a thrown exception is an explicit completion.

    Raw cell values are the primitives of the data model (undefined, null,
    numbers, strings); the page size, the maximum length of [truncate] and
    the precisions are integers; the markup a render writes is kept as the
    header cells and body rows it is made of. *)

From Stdlib Require Import ZArith NArith List String Ascii Floats Lia Bool.
From stdpp Require Import base option list gmap sorting.

Set Default Proof Using "Type".

(** ** Strings *)

(** A JavaScript string: its UTF-16 code units. *)
Abbreviation jsstring := (list N).

(** A literal of ASCII characters as a JavaScript string. *)
Definition js (s : string) : jsstring :=
  map N_of_ascii (list_ascii_of_string s).
Arguments js s%_string.

(** U+2026, the ellipsis appended by [truncate]. *)
Definition ELLIPSIS : N := 8230.
(** U+0394, the capital delta written by [formatColumnName]. *)
Definition DELTA : N := 916.

(** ** Numbers and values *)

(** The number of a non-negative integer, rounded to nearest as a numeric
    literal is. *)
Definition number_of_Z (z : Z) : float :=
  SF2Prim (binary_normalize prec emax z 0 false).

(** A raw cell value: the primitives a row may hold. *)
Inductive value :=
| VUndefined
| VNull
| VNum (f : float)
| VStr (s : jsstring).

(** What a [throw] carries, by the error's class. *)
Inductive exn := TypeError | RangeError | DOMException.

(** How a call completes: normally with a result, or abruptly. *)
Inductive completion (A : Type) :=
| Return (a : A)
| Throw (e : exn).
Arguments Return {A} a.
Arguments Throw {A} e.

(** An [Intl.NumberFormat] object, by the options [createLocale] gives it. *)
Record locale := {
  maximumFractionDigits : option nat;
  minimumFractionDigits : option nat
}.

(** ** Completions threaded through state *)

(** A computation over a state [S] that returns or throws; the state
    survives a throw, as every write made before it does. *)
Definition ST (S A : Type) : Type := S -> completion A * S.

#[global] Instance ST_ret {S} : MRet (ST S) :=
  fun A a s => (Return a, s).

#[global] Instance ST_bind {S} : MBind (ST S) :=
  fun A B k m s =>
    match m s with
    | (Return a, s') => k a s'
    | (Throw e, s') => (Throw e, s')
    end.

Definition throw {S A} (e : exn) : ST S A := fun s => (Throw e, s).
Definition get_state {S} : ST S S := fun s => (Return s, s).
Definition put_state {S} (s : S) : ST S unit := fun _ => (Return tt, s).
Definition lift_completion {S A} (c : completion A) : ST S A :=
  fun s => (c, s).

(** [for (const x of l) ...] collecting the results, left to right. *)
Fixpoint forM {S A B} (f : A -> ST S B) (l : list A) : ST S (list B) :=
  match l with
  | [] => mret []
  | x :: l' => y ← f x; ys ← forM f l'; mret (y :: ys)
  end.

(** ** Objects and references *)

(** A row: column key to raw value. *)
Abbreviation row := (list (jsstring * value)).
(** A sort state: an object with string properties, [column] and [order]
    among them when it is well formed. *)
Abbreviation sortState := (list (jsstring * jsstring)).
(** A reference to an array of rows. *)
Abbreviation loc := nat.

(** [cachedLocales]: the module's array of locale objects, by the
    precision used as index ([None] for the index [undefined]). *)
Abbreviation locales := (gmap (option nat) locale).

(** ** The runtime *)

(** The parts of the JavaScript runtime the source calls and that are left
    to the host: the properties below hold whatever they return. *)
Class Host := {
  (** [StringToNumber] on a string that is neither a plain run of decimal
      digits nor plainly no number (signs, fractions, exponents, white
      space, other radices). *)
  StringToNumber_host : jsstring -> float;
  (** [Intl.NumberFormat.prototype.format]. *)
  NumberFormat_format : locale -> value -> jsstring;
  (** [Number.prototype.toFixed]. *)
  Number_toFixed : float -> nat -> jsstring;
  (** [Number::toString]. *)
  Number_toString : float -> jsstring;
  (** [String.prototype.toUpperCase] on one code unit outside ASCII. *)
  toUpperCase_host : N -> jsstring;
  (** [Array.prototype.sort] with a comparator that is not consistent for
      the elements: the language leaves the order to the engine.  The
      elements stay the same. *)
  sort_inconsistent : (row -> row -> Z) -> list row -> list row;
  sort_inconsistent_perm :
    forall cmp l, sort_inconsistent cmp l ≡ₚ l;
  (** What an object literal answers for a key it has no property for:
      the member of [Object.prototype] the key names ([toString],
      [constructor], [__proto__] and the like), here by its text,
      [String(member)]; [None] for a key that names no member.  A member
      is a function or an object, so none is falsy. *)
  Object_prototype_text : jsstring -> option jsstring;
  (** The same for the array literal [[]], which answers with the members
      of [Array.prototype] ([values], [map] and the like) and, behind
      them, those of [Object.prototype]. *)
  Array_prototype_text : jsstring -> option jsstring;
  (** A member of [Object.prototype] called as a method of an object of
      formatters, [formatters[key](value, row)], and the text of what it
      returns; the call of a member that is no function throws.  [None]
      for a key that names no member. *)
  Object_prototype_call :
    gmap jsstring (value -> row -> ST locales jsstring) -> jsstring ->
    option (value -> row -> completion jsstring)
}.

Section Runtime.
Context `{Host}.

Definition is_digit (c : N) : bool := (48 <=? c)%N && (c <=? 57)%N.

(** The value of a run of decimal digits, most significant first. *)
Definition digits_value (s : jsstring) : Z :=
  fold_left (fun acc c => (10 * acc + Z.of_N (c - 48))%Z) s 0%Z.

(** A letter that no numeric literal contains: none of the hexadecimal
    digits, of [e], [x], [o], [b] and of the letters of [Infinity]. *)
Definition never_numeric (c : N) : bool :=
  existsb (N.eqb c) (js "ghjklmpqrsuvwzGHJKLMNPQRSTUVWYZ").

(** [StringToNumber]: the empty string is [+0], a run of decimal digits is
    its value, a string with a letter no numeric literal has is NaN; every
    other string is the host's. *)
Definition StringToNumber (s : jsstring) : float :=
  match s with
  | [] => 0%float
  | _ => if forallb is_digit s then number_of_Z (digits_value s)
         else if existsb never_numeric s then nan
         else StringToNumber_host s
  end.

Definition ToNumber (v : value) : float :=
  match v with
  | VUndefined => nan
  | VNull => 0%float
  | VNum f => f
  | VStr s => StringToNumber s
  end.

Definition ToBoolean (v : value) : bool :=
  match v with
  | VUndefined | VNull => false
  | VNum f => negb (is_nan f) && negb (is_zero f)
  | VStr s => match s with [] => false | _ => true end
  end.

Definition ToString (v : value) : jsstring :=
  match v with
  | VUndefined => js "undefined"
  | VNull => js "null"
  | VNum f => Number_toString f
  | VStr s => s
  end.

(** The global [isFinite]: it converts its argument first. *)
Definition isFinite (v : value) : bool :=
  let f := ToNumber v in negb (is_nan f) && negb (is_infinity f).

(** [v != null]. *)
Definition not_nullish (v : value) : bool :=
  match v with
  | VUndefined | VNull => false
  | _ => true
  end.

(** Code-unit order on strings. *)
Fixpoint string_lt (s t : jsstring) : bool :=
  match s, t with
  | _, [] => false
  | [], _ :: _ => true
  | a :: s', b :: t' => (a <? b)%N || ((a =? b)%N && string_lt s' t')
  end.

(** [a < b]: two strings compare by code units, anything else as numbers;
    an undefined comparison (a NaN operand) is false. *)
Definition less_than (a b : value) : bool :=
  match a, b with
  | VStr s, VStr t => string_lt s t
  | _, _ => (ToNumber a <? ToNumber b)%float
  end.

(** [a > b]. *)
Definition greater_than (a b : value) : bool := less_than b a.

(** ** The formatters (lines 8-59) *)

(** The largest fraction digit count [Intl.NumberFormat] accepts. *)
Definition fractionDigitsLimit : nat := 100.

Definition createLocale (precision : option nat) : completion locale :=
  match precision with
  | Some p =>
      if (fractionDigitsLimit <? p)%nat then Throw RangeError
      else Return {| maximumFractionDigits := Some p;
                     minimumFractionDigits := Some p |}
  | None => Return {| maximumFractionDigits := None;
                      minimumFractionDigits := None |}
  end.

Definition isValidNumber (v : value) : bool := not_nullish v && isFinite v.

(** The lines each of [formatCurrency], [formatPercent] and [formatFixed]
    repeats: fill [cachedLocales[precision]] when it is empty, then read
    it. *)
Definition cachedLocale (precision : option nat) : ST locales locale :=
  cache ← get_state;
  match cache !! precision with
  | Some l => mret l
  | None =>
      l ← lift_completion (createLocale precision);
      _ ← put_state (<[precision := l]> cache);
      mret l
  end.

(** The formatters' unused second parameter (the row) is left out. *)
Definition formatCurrency (v : value) (precision : option nat)
  : ST locales jsstring :=
  if negb (isValidNumber v) then mret (js "-")
  else
    let precision := match precision with None => Some 2%nat | p => p end in
    l ← cachedLocale precision;
    mret (js "$" ++ NumberFormat_format l v).

Definition formatDollars (v : value) : ST locales jsstring :=
  formatCurrency v (Some 0%nat).

Definition formatCPM (v : value) : ST locales jsstring :=
  formatCurrency
    (if ToBoolean v then VNum (ToNumber v / 1000)%float else v) None.

Definition formatPercent (v : value) (precision : option nat)
  : ST locales jsstring :=
  let precision := match precision with None => Some 2%nat | p => p end in
  if negb (isValidNumber v) then mret (js "-")
  else
    l ← cachedLocale precision;
    mret (NumberFormat_format l (VNum (ToNumber v * 100)%float) ++ js "%").

Definition formatPercent0 (v : value) : ST locales jsstring :=
  formatPercent v (Some 0%nat).
Definition formatPercent1 (v : value) : ST locales jsstring :=
  formatPercent v (Some 1%nat).

Definition formatFixed (v : value) (precision : option nat)
  : ST locales jsstring :=
  if negb (isValidNumber v) then mret (js "-")
  else
    l ← cachedLocale precision;
    mret (NumberFormat_format l v).

Definition formatFixed0 (v : value) : ST locales jsstring :=
  formatFixed v (Some 0%nat).
Definition formatFixed1 (v : value) : ST locales jsstring :=
  formatFixed v (Some 1%nat).
Definition formatFixed2 (v : value) : ST locales jsstring :=
  formatFixed v (Some 2%nat).

Definition formatThousands (v : value) : ST locales jsstring :=
  s ← formatFixed (VNum (ToNumber v / 1000)%float) (Some 1%nat);
  mret (s ++ js "K").

(** [v.toFixed] is a method of numbers only: on a string that passed
    [isValidNumber] the call is a [TypeError]. *)
Definition formatCalibration (v : value) : ST locales jsstring :=
  if isValidNumber v then
    match v with
    | VNum f => mret (Number_toFixed f 2 ++ js "x")
    | _ => throw TypeError
    end
  else mret (js "-").

(** ** [truncate] (lines 58-59) *)

(** An integer or an infinity, as [ToIntegerOrInfinity] returns. *)
Inductive intinf := NegInfinity | Int (z : Z) | PosInfinity.

(** NaN and the zeros give 0, an infinity itself, a finite number its
    integer part. *)
Definition ToIntegerOrInfinity (f : float) : intinf :=
  match Prim2SF f with
  | S754_nan | S754_zero _ => Int 0
  | S754_infinity s => if s then NegInfinity else PosInfinity
  | S754_finite s m e =>
      let a := Z.shiftl (Zpos m) e in Int (if s then - a else a)
  end.

(** [min(max(i, 0), len)]. *)
Definition clamp (i : intinf) (len : nat) : nat :=
  match i with
  | NegInfinity => 0%nat
  | PosInfinity => len
  | Int z => Z.to_nat (Z.min (Z.max z 0) (Z.of_nat len))
  end.

(** [String.prototype.substring(start, end)]: both ends are converted and
    clamped to the string, and swapped when they come in the wrong order. *)
Definition substring (s : jsstring) (start : value) (end_ : Z) : jsstring :=
  let len := length s in
  let finalStart := clamp (ToIntegerOrInfinity (ToNumber start)) len in
  let finalEnd := clamp (Int end_) len in
  let from := Nat.min finalStart finalEnd in
  let to := Nat.max finalStart finalEnd in
  take (to - from) (drop from s).

(** [s.length] of [null] or [undefined] throws; a number has no [length]
    ([undefined <= length] is false) and no [substring] to call. *)
Definition truncate (s : value) (length_ : Z) : completion jsstring :=
  match s with
  | VUndefined | VNull => Throw TypeError
  | VNum _ => Throw TypeError
  | VStr str =>
      if (Z.of_nat (length str) <=? length_)%Z then Return str
      else Return (substring str s (length_ - 1) ++ [ELLIPSIS])
  end.

(** ** [formatColumnName] (lines 230-240) *)

Fixpoint starts_with (p s : jsstring) : bool :=
  match p, s with
  | [], _ => true
  | _ :: _, [] => false
  | a :: p', b :: s' => (a =? b)%N && starts_with p' s'
  end.

(** [s.replace(/pat/, rep)] for a pattern of literal characters: the
    leftmost occurrence is replaced, the others stay. *)
Fixpoint replace_first (pat rep s : jsstring) : jsstring :=
  if starts_with pat s then rep ++ drop (length pat) s
  else match s with
       | [] => []
       | c :: s' => c :: replace_first pat rep s'
       end.

(** [s.replace(/pat$/, rep)]: the pattern matches at the end of the string
    only. *)
Fixpoint replace_at_end (pat rep s : jsstring) : jsstring :=
  if (length s =? length pat)%nat && starts_with pat s then rep
  else match s with
       | [] => []
       | c :: s' => c :: replace_at_end pat rep s'
       end.

(** [s.split(sep)] for a separator of one code unit. *)
Fixpoint split (sep : N) (s : jsstring) : list jsstring :=
  match s with
  | [] => [[]]
  | c :: s' =>
      if (c =? sep)%N then [] :: split sep s'
      else match split sep s' with
           | w :: ws => (c :: w) :: ws
           | [] => [[c]]
           end
  end.

(** [words.join(sep)]. *)
Fixpoint join (sep : jsstring) (words : list jsstring) : jsstring :=
  match words with
  | [] => []
  | [w] => w
  | w :: ws => w ++ sep ++ join sep ws
  end.

(** [toUpperCase] of a string of one code unit: ASCII by its table, the
    capital delta (a capital already) unchanged, the rest of Unicode by the
    host. *)
Definition toUpperCase1 (c : N) : jsstring :=
  if (97 <=? c)%N && (c <=? 122)%N then [(c - 32)%N]
  else if (c <? 128)%N then [c]
  else if (c =? DELTA)%N then [c]
  else toUpperCase_host c.

(** [w[0].toUpperCase() + w.slice(1)]: [w[0]] of an empty word is
    [undefined], which has no [toUpperCase]. *)
Definition capitalize (w : jsstring) : completion jsstring :=
  match w with
  | [] => Throw TypeError
  | c :: rest => Return (toUpperCase1 c ++ rest)
  end.

(** [words.map(f)] for a callback that may throw. *)
Fixpoint map_completion {A B} (f : A -> completion B) (l : list A)
  : completion (list B) :=
  match l with
  | [] => Return []
  | x :: l' =>
      match f x with
      | Throw e => Throw e
      | Return y =>
          match map_completion f l' with
          | Throw e => Throw e
          | Return ys => Return (y :: ys)
          end
      end
  end.

Definition formatColumnName (column : jsstring) : completion jsstring :=
  let column := replace_at_end (js "-id") (js "-ID") column in
  let column := replace_first (js "percent") (js "%") column in
  let column := replace_first (js "pct") (js "%") column in
  let column := replace_first (js "delta") [DELTA] column in
  match map_completion capitalize (split 45 column) with
  | Throw e => Throw e
  | Return words => Return (join (js " ") words)
  end.

(** The humanized name in the specification's words: a trailing "-id"
    becomes "-ID", "percent" and "pct" become "%", "delta" becomes the
    capital delta; the result is split on dashes, the first letter of each
    segment is capitalized, and the segments are joined by spaces. *)
Definition trailing_id (key : jsstring) : jsstring :=
  if decide (js "-id" `suffix_of` key)
  then take (length key - 3) key ++ js "-ID" else key.

Definition segments (key : jsstring) : list jsstring :=
  split 45
    (replace_first (js "delta") [DELTA]
       (replace_first (js "pct") (js "%")
          (replace_first (js "percent") (js "%") (trailing_id key)))).

Definition capitalized (w : jsstring) : jsstring :=
  match w with
  | [] => []
  | c :: rest => toUpperCase1 c ++ rest
  end.

Definition humanize (key : jsstring) : jsstring :=
  join (js " ") (capitalized <$> segments key).

Definition nonempty (w : jsstring) : bool :=
  match w with
  | [] => false
  | _ => true
  end.

(** ** The component (lines 61-241) *)

(** An object with the own properties a row or a sort state has, in the
    order [Object.keys] and [JSON.stringify] enumerate them.  Rows and
    sort states are read by their own properties throughout: for them a
    key that names an inherited member ([constructor], [toString]) is
    outside the model. *)
Fixpoint own_property {V} (key : jsstring) (o : list (jsstring * V))
  : option V :=
  match o with
  | [] => None
  | (k, v) :: o' => if decide (k = key) then Some v else own_property key o'
  end.

(** [undefined] used as a property key names the property "undefined". *)
Definition property_key (k : option jsstring) : jsstring :=
  default (js "undefined") k.

(** [row[column]]. *)
Definition get (r : row) (column : option jsstring) : value :=
  default VUndefined (own_property (property_key column) r).

(** A formatter: the cell's raw value and its row to a display string; it
    may use the locale cache, and it may throw. *)
Definition formatter : Type := value -> row -> ST locales jsstring.

(** The options the constructor reads; [None] is an option left out. *)
Record Options := {
  options_columnNames : option (gmap jsstring jsstring);
  options_columns : option (list jsstring);
  options_pageSize : option Z;
  options_sort : option sortState;
  options_clickableColumns : option (list jsstring);
  options_formatters : option (gmap jsstring formatter)
}.

(** A header cell as [renderRows] writes it: its [class] attribute, its
    [data-column], the name in its [span], and the tokens added to its
    [classList] afterwards. *)
Record th := {
  th_class : option jsstring;
  th_column : jsstring;
  th_name : jsstring;
  th_classList : list jsstring
}.

Record td := {
  td_class : option jsstring;
  td_column : jsstring;
  td_value : jsstring
}.

(** A body row: its [data-i], its selection class when a predicate was
    given, and its cells.  The text of a formatted value is carried as it
    is; what a browser would make of markup inside it is outside the
    model. *)
Record tr := {
  tr_i : nat;
  tr_class : option jsstring;
  tr_cells : list td
}.

(** The fields of a [DataTable]; [thead] and [tbody] are the contents of
    the two elements of [this.el].  [columnNames] is the object of the
    options, or [None] for the empty array the constructor puts there
    when the option is left out. *)
Record DataTable := {
  columnNames : option (gmap jsstring jsstring);
  columns : option (list jsstring);
  pageSize : Z;
  sortOptions : option sortState;
  clickableColumns : list jsstring;
  thead : list th;
  tbody : list tr;
  formatters : gmap jsstring formatter;
  rows : option loc;
  renderedColumns : option (list jsstring)
}.

(** [options.pageSize || 30] and the like: a falsy option takes the
    default. *)
Definition constructor (options : Options) : DataTable := {|
  columnNames := options_columnNames options;
  columns := options_columns options;
  pageSize :=
    match options_pageSize options with
    | None => 30
    | Some p => if (p =? 0)%Z then 30 else p
    end;
  sortOptions := options_sort options;
  clickableColumns := default [] (options_clickableColumns options);
  thead := [];
  tbody := [];
  formatters := default ∅ (options_formatters options);
  rows := None;
  renderedColumns := None
|}.

(** The events the component dispatches, with their [detail]. *)
Inductive notification :=
| cellClick (column : option jsstring) (value_ : value) (action : jsstring)
| graphButtonClick
| sortChange (sort : option sortState).

(** A click inside the table, by its target: a body cell (its
    [cellIndex], its row's [data-i], the shift key), the graph button, a
    header cell, or anything else. *)
Inductive click :=
| TD (cellIndex i : nat) (shiftKey : bool)
| GraphButton
| TH (cellIndex : nat)
| Elsewhere.

(** What a method of the component can read and write: the component, the
    arrays of rows the page and the component share, the module's locale
    cache, and the events dispatched so far. *)
Record World := {
  this : DataTable;
  arrays : gmap loc (list row);
  cachedLocales : locales;
  dispatched : list notification
}.

Definition with_this (t : DataTable) (w : World) : World :=
  {| this := t; arrays := arrays w; cachedLocales := cachedLocales w;
     dispatched := dispatched w |}.

Definition with_array (l : loc) (rs : list row) (w : World) : World :=
  {| this := this w; arrays := <[l := rs]> (arrays w);
     cachedLocales := cachedLocales w; dispatched := dispatched w |}.

Definition with_cache (c : locales) (w : World) : World :=
  {| this := this w; arrays := arrays w; cachedLocales := c;
     dispatched := dispatched w |}.

Definition with_event (e : notification) (w : World) : World :=
  {| this := this w; arrays := arrays w; cachedLocales := cachedLocales w;
     dispatched := dispatched w ++ [e] |}.

Definition get_this : ST World DataTable :=
  fun w => (Return (this w), w).

Definition set_this (t : DataTable) : ST World unit :=
  fun w => (Return tt, with_this t w).

(** Reading the array behind a reference. *)
Definition deref (l : loc) : ST World (list row) :=
  fun w => match arrays w !! l with
           | Some rs => (Return rs, w)
           | None => (Throw TypeError, w)
           end.

(** Writing an array in place. *)
Definition store (l : loc) (rs : list row) : ST World unit :=
  fun w => (Return tt, with_array l rs w).

(** A formatter runs on the module's locale cache. *)
Definition with_locales {A} (m : ST locales A) : ST World A :=
  fun w => let (r, c) := m (cachedLocales w) in (r, with_cache c w).

Definition dispatchEvent (e : notification) : ST World unit :=
  fun w => (Return tt, with_event e w).

Definition set_sortOptions (so : option sortState) (t : DataTable)
  : DataTable :=
  {| columnNames := columnNames t; columns := columns t;
     pageSize := pageSize t; sortOptions := so;
     clickableColumns := clickableColumns t; thead := thead t;
     tbody := tbody t; formatters := formatters t; rows := rows t;
     renderedColumns := renderedColumns t |}.

Definition set_rows (l : loc) (t : DataTable) : DataTable :=
  {| columnNames := columnNames t; columns := columns t;
     pageSize := pageSize t; sortOptions := sortOptions t;
     clickableColumns := clickableColumns t; thead := thead t;
     tbody := tbody t; formatters := formatters t; rows := Some l;
     renderedColumns := renderedColumns t |}.

Definition set_renderedColumns (cs : list jsstring) (t : DataTable)
  : DataTable :=
  {| columnNames := columnNames t; columns := columns t;
     pageSize := pageSize t; sortOptions := sortOptions t;
     clickableColumns := clickableColumns t; thead := thead t;
     tbody := tbody t; formatters := formatters t; rows := rows t;
     renderedColumns := Some cs |}.

Definition set_thead (h : list th) (t : DataTable) : DataTable :=
  {| columnNames := columnNames t; columns := columns t;
     pageSize := pageSize t; sortOptions := sortOptions t;
     clickableColumns := clickableColumns t; thead := h;
     tbody := tbody t; formatters := formatters t; rows := rows t;
     renderedColumns := renderedColumns t |}.

Definition set_tbody (b : list tr) (t : DataTable) : DataTable :=
  {| columnNames := columnNames t; columns := columns t;
     pageSize := pageSize t; sortOptions := sortOptions t;
     clickableColumns := clickableColumns t; thead := thead t;
     tbody := b; formatters := formatters t; rows := rows t;
     renderedColumns := renderedColumns t |}.

(** [this.field = ...]. *)
Definition update_this (f : DataTable -> DataTable) : ST World unit :=
  t ← get_this; set_this (f t).

(** *** [JSON.stringify] of a sort state *)

(** One hexadecimal digit, in lower case. *)
Definition hex_digit (n : N) : N :=
  if (n <? 10)%N then (48 + n)%N else (87 + n)%N.

(** [UnicodeEscape]: a backslash, [u] and four hexadecimal digits. *)
Definition UnicodeEscape (c : N) : jsstring :=
  [92; 117; hex_digit (c / 4096); hex_digit ((c / 256) mod 16);
   hex_digit ((c / 16) mod 16); hex_digit (c mod 16)]%N.

Definition is_leading_surrogate (c : N) : bool :=
  (55296 <=? c)%N && (c <=? 56319)%N.
Definition is_trailing_surrogate (c : N) : bool :=
  (56320 <=? c)%N && (c <=? 57343)%N.

(** The code points of a string between the quotes [QuoteJSONString]
    writes: the seven characters with a short escape, the other control
    characters and the lone surrogates as [UnicodeEscape], everything else
    (a surrogate pair too) as it is. *)
Fixpoint QuoteJSONString_body (s : jsstring) : jsstring :=
  match s with
  | [] => []
  | c :: s' =>
      if (c =? 8)%N then [92; 98]%N ++ QuoteJSONString_body s'
      else if (c =? 9)%N then [92; 116]%N ++ QuoteJSONString_body s'
      else if (c =? 10)%N then [92; 110]%N ++ QuoteJSONString_body s'
      else if (c =? 12)%N then [92; 102]%N ++ QuoteJSONString_body s'
      else if (c =? 13)%N then [92; 114]%N ++ QuoteJSONString_body s'
      else if (c =? 34)%N then [92; 34]%N ++ QuoteJSONString_body s'
      else if (c =? 92)%N then [92; 92]%N ++ QuoteJSONString_body s'
      else if (c <? 32)%N then UnicodeEscape c ++ QuoteJSONString_body s'
      else if is_leading_surrogate c then
        match s' with
        | d :: s'' =>
            if is_trailing_surrogate d then c :: d :: QuoteJSONString_body s''
            else UnicodeEscape c ++ QuoteJSONString_body s'
        | [] => UnicodeEscape c
        end
      else if is_trailing_surrogate c then
        UnicodeEscape c ++ QuoteJSONString_body s'
      else c :: QuoteJSONString_body s'
  end.

Definition QuoteJSONString (s : jsstring) : jsstring :=
  [34%N] ++ QuoteJSONString_body s ++ [34%N].

(** Reading back one quoted code point: the input it stands for and the
    text that follows it.  It inverts [QuoteJSONString_body] step by step,
    which is how the text of two different strings is told apart. *)
Definition unhex (d : N) : N :=
  if (d <? 58)%N then (d - 48)%N else (d - 87)%N.

Definition unquote_step (out : jsstring) : option (jsstring * jsstring) :=
  match out with
  | [] => None
  | c :: r =>
      if (c =? 34)%N then None
      else if (c =? 92)%N then
        match r with
        | x :: r' =>
            if (x =? 98)%N then Some ([8%N], r')
            else if (x =? 116)%N then Some ([9%N], r')
            else if (x =? 110)%N then Some ([10%N], r')
            else if (x =? 102)%N then Some ([12%N], r')
            else if (x =? 114)%N then Some ([13%N], r')
            else if (x =? 34)%N then Some ([34%N], r')
            else if (x =? 92)%N then Some ([92%N], r')
            else
              match r' with
              | h3 :: h2 :: h1 :: h0 :: r'' =>
                  Some ([(4096 * unhex h3 + 256 * unhex h2
                          + 16 * unhex h1 + unhex h0)%N], r'')
              | _ => None
              end
        | [] => None
        end
      else if is_leading_surrogate c then
        match r with
        | d :: r' => Some ([c; d], r')
        | [] => None
        end
      else Some ([c], r)
  end.

(** The members of an object, each [key:value], separated by commas. *)
Fixpoint SerializeJSONMembers (o : sortState) : jsstring :=
  match o with
  | [] => []
  | [(k, v)] => QuoteJSONString k ++ [58%N] ++ QuoteJSONString v
  | (k, v) :: o' =>
      QuoteJSONString k ++ [58%N] ++ QuoteJSONString v ++ [44%N]
      ++ SerializeJSONMembers o'
  end.

(** [JSON.stringify]: [undefined] for [undefined], the text of the object
    otherwise. *)
Definition JSON_stringify (so : option sortState) : option jsstring :=
  match so with
  | None => None
  | Some o => Some ([123%N] ++ SerializeJSONMembers o ++ [125%N])
  end.

(** Deep equality of two sort states: the same properties with the same
    values, in whatever order the keys come. *)
Definition deep_equal (a b : option sortState) : Prop :=
  match a, b with
  | None, None => True
  | Some x, Some y => x ≡ₚ y
  | _, _ => False
  end.

(** *** [setSortOptions] (lines 124-129) *)

Definition setSortOptions (sortOptions_ : option sortState) : ST World unit :=
  t ← get_this;
  if decide (JSON_stringify (sortOptions t) = JSON_stringify sortOptions_)
  then mret tt
  else update_this (set_sortOptions sortOptions_).

(** *** [onClick] (lines 84-122) *)

(** [this.sortOptions?.column == column] for the column of a rendered
    header ([undefined] when the index is past the rendered columns). *)
Definition same_column (so : option sortState) (column : option jsstring)
  : bool :=
  match so with
  | None => bool_decide (column = None)
  | Some o => bool_decide (own_property (js "column") o = column)
  end.

(** An object literal [{ column: column, order: order }]; a property whose
    value is [undefined] holds no string and is left out of the model. *)
Definition new_sortOptions (column : option jsstring) (order : jsstring)
  : sortState :=
  match column with
  | Some c => [(js "column", c); (js "order", order)]
  | None => [(js "order", order)]
  end.

(** The selection change after a cell click
    ([window.getSelection().removeAllRanges()]) touches nothing of the
    component and is not modelled. *)
Definition onClick (event : click) : ST World unit :=
  match event with
  | TD cellIndex i shiftKey =>
      t ← get_this;
      match renderedColumns t, rows t with
      | Some cols, Some l =>
          let column := cols !! cellIndex in
          let action := if shiftKey then js "toggle" else js "select" in
          rs ← deref l;
          match rs !! i with
          | Some r => dispatchEvent (cellClick column (get r column) action)
          | None => throw TypeError
          end
      | _, _ => throw TypeError
      end
  | GraphButton => dispatchEvent graphButtonClick
  | TH cellIndex =>
      t ← get_this;
      match renderedColumns t with
      | None => throw TypeError
      | Some cols =>
          let column := cols !! cellIndex in
          sortOptions_ ←
            (if same_column (sortOptions t) column then
               match sortOptions t with
               | None => throw TypeError
               | Some o =>
                   mret (new_sortOptions column
                           (if bool_decide
                                 (own_property (js "order") o
                                  = Some (js "asc"))
                            then js "desc" else js "asc"))
               end
             else mret (new_sortOptions column (js "desc")));
          _ ← setSortOptions (Some sortOptions_);
          t' ← get_this;
          dispatchEvent (sortChange (sortOptions t'))
      end
  | Elsewhere => mret tt
  end.

(** *** [renderRows] (lines 134-225) *)

Definition compare (a b : value) : Z :=
  if less_than a b then (-1)%Z else if greater_than a b then 1%Z else 0%Z.

(** The comparator of line 152: by the raw values of the sort column,
    operands swapped unless the order is "asc". *)
Definition comparator (order column : option jsstring) (a b : row) : Z :=
  if bool_decide (order = Some (js "asc"))
  then compare (get a column) (get b column)
  else compare (get b column) (get a column).

(** A comparator is consistent for the elements of an array when it
    answers 0 for an element and itself, answers 0 for a pair whichever
    way round it is asked, and each of its three answers is transitive
    (ECMA-262, 23.1.3.30). *)
Definition consistent {A} (cmp : A -> A -> Z) (l : list A) : bool :=
  forallb (fun a =>
    (cmp a a =? 0)%Z
    && forallb (fun b =>
         implb (cmp a b =? 0)%Z (cmp b a =? 0)%Z
         && forallb (fun c =>
              implb ((cmp a b =? 0)%Z && (cmp b c =? 0)%Z) (cmp a c =? 0)%Z
              && implb ((cmp a b <? 0)%Z && (cmp b c <? 0)%Z) (cmp a c <? 0)%Z
              && implb ((0 <? cmp a b)%Z && (0 <? cmp b c)%Z) (0 <? cmp a c)%Z)
            l) l) l.

(** Straight insertion: an element goes before the first one the
    comparator does not rank it after, so the elements it ranks equal
    keep the order they came in. *)
Fixpoint insert_sorted {A} (cmp : A -> A -> Z) (x : A) (l : list A)
  : list A :=
  match l with
  | [] => [x]
  | y :: l' => if (0 <? cmp x y)%Z then y :: insert_sorted cmp x l'
               else x :: l
  end.

Definition stable_sort {A} (cmp : A -> A -> Z) (l : list A) : list A :=
  foldr (insert_sorted cmp) [] l.

(** [Array.prototype.sort] on an array of rows.  The sort is stable, so
    with a comparator that is consistent for the rows its result is the
    one list that is sorted and stable; with any other comparator the
    order is the engine's. *)
Definition Array_sort (cmp : row -> row -> Z) (l : list row) : list row :=
  if consistent cmp l then stable_sort cmp l else sort_inconsistent cmp l.

Fixpoint drop_while {A} (p : A -> bool) (l : list A) : list A :=
  match l with
  | [] => []
  | x :: l' => if p x then drop_while p l' else l
  end.

(** [/^[$]*[0-9,.\-]+[%xKMG]*$/.test(string)]: the three classes share no
    character, so the match is the greedy one. *)
Definition isNumeric (text : jsstring) : bool :=
  let in_body c := is_digit c || existsb (N.eqb c) (js ",.-") in
  let after_dollars := drop_while (N.eqb 36) text in
  let after_body := drop_while in_body after_dollars in
  (length after_body <? length after_dollars)%nat
  && forallb (fun c => existsb (N.eqb c) (js "%xKMG")) after_body.

(** [this.formatters[col]]: the formatter configured for the column, or,
    for a key the object has no property for, the member of
    [Object.prototype] the key names. *)
Definition formatter_for (t : DataTable) (col : jsstring) : option formatter :=
  match formatters t !! col with
  | Some f => Some f
  | None =>
      (fun member v r => lift_completion (member v r))
        <$> Object_prototype_call (formatters t) col
  end.

(** [format(col, row)] of line 161. *)
Definition format (t : DataTable) (col : jsstring) (r : row)
  : ST locales jsstring :=
  match formatter_for t col with
  | Some f => f (get r (Some col)) r
  | None => mret (ToString (get r (Some col)))
  end.

(** One entry of [colStyles] (lines 172-178). *)
Definition colStyle (t : DataTable) (r : row) (c : jsstring)
  : ST locales (option jsstring) :=
  text ← format t c r;
  let classNames :=
    (if bool_decide (c ∈ clickableColumns t) then [js "clickable"] else [])
    ++ (if isNumeric text then [js "number"] else []) in
  mret (match classNames with
        | [] => None
        | _ => Some (join (js ",") classNames)
        end).

(** [this.columnNames[col]] when it is truthy: the name configured for
    the column, unless it is empty; for a key [columnNames] has no
    property for, the member of its prototype chain that the key names,
    by the text a header shows for it.  The one property of the empty
    array is its [length], 0, which is falsy. *)
Definition configured_name (t : DataTable) (col : jsstring)
  : option jsstring :=
  match columnNames t with
  | Some names =>
      match names !! col with
      | Some [] => None
      | Some name => Some name
      | None => Object_prototype_text col
      end
  | None =>
      if decide (col = js "length") then None else Array_prototype_text col
  end.

(** [this.columnNames[col] || DataTable.formatColumnName(col)] of line
    182: the name a header shows. *)
Definition display_name (t : DataTable) (col : jsstring)
  : completion jsstring :=
  match configured_name t col with
  | Some name => Return name
  | None => formatColumnName col
  end.

(** One header cell (lines 181-192). *)
Definition header_cell (t : DataTable) (c : jsstring * option jsstring)
  : completion th :=
  let (col, style) := c in
  match display_name t col with
  | Throw e => Throw e
  | Return columnName =>
      Return {| th_class := style; th_column := col;
                th_name := columnName; th_classList := [] |}
  end.

Fixpoint indexOf (c : jsstring) (l : list jsstring) : option nat :=
  match l with
  | [] => None
  | x :: l' => if decide (x = c) then Some 0%nat else S <$> indexOf c l'
  end.

(** [classList.add] refuses the empty token and a token with white
    space. *)
Definition valid_token (token : jsstring) : bool :=
  match token with
  | [] => false
  | _ => negb (existsb (fun c => existsb (N.eqb c) [9; 10; 12; 13; 32]%N)
                 token)
  end.

(** Lines 195-202: the header of the sort column, when it is rendered,
    gets the order as a class. *)
Definition add_sort_class (o : sortState) (columns_ : list jsstring)
  : ST World unit :=
  match own_property (js "column") o with
  | None => mret tt
  | Some c =>
      match indexOf c columns_ with
      | None => mret tt
      | Some sortColumnIndex =>
          let token := default (js "undefined") (own_property (js "order") o) in
          if valid_token token then
            update_this (fun t =>
              set_thead
                (alter (fun h => {| th_class := th_class h;
                                    th_column := th_column h;
                                    th_name := th_name h;
                                    th_classList := th_classList h ++ [token] |})
                   sortColumnIndex (thead t)) t)
          else throw DOMException
      end
  end.

(** One turn of the loop of lines 207-223. *)
Definition body_row (t : DataTable) (isSelectedFn : option (row -> bool))
    (rs : list row) (columns_ : list jsstring)
    (colStyles : list (option jsstring)) (i : nat) : ST locales tr :=
  match rs !! i with
  | None => throw TypeError
  | Some r =>
      let rowClass :=
        match isSelectedFn with
        | Some f => Some (if f r then js "selected" else js "unselected")
        | None => None
        end in
      cells ← forM (fun c : jsstring * option jsstring =>
                      value_ ← format t c.1 r;
                      mret {| td_class := c.2; td_column := c.1;
                              td_value := value_ |})
                   (zip columns_ colStyles);
      mret {| tr_i := i; tr_class := rowClass; tr_cells := cells |}
  end.

(** [rows_] is the caller's array: [this.rows] aliases it, and the sort
    reorders it in place.  [colStyles] is as long as [columns], so reading
    it by index is reading the two side by side. *)
Definition renderRows (rows_ : loc) (isSelectedFn : option (row -> bool))
  : ST World unit :=
  _ ← update_this (set_rows rows_);
  rs ← deref rows_;
  match rs with
  | [] => update_this (set_tbody [])
  | _ :: _ =>
      t ← get_this;
      _ ← match sortOptions t with
          | Some o =>
              store rows_
                (Array_sort (comparator (own_property (js "order") o)
                               (own_property (js "column") o)) rs)
          | None => mret tt
          end;
      rs ← deref rows_;
      match rs with
      | [] => throw TypeError
      | row0 :: _ =>
          let columns_ := default (map fst row0) (columns t) in
          _ ← update_this (set_renderedColumns columns_);
          colStyles ← with_locales (forM (colStyle t row0) columns_);
          head ← lift_completion
                   (map_completion (header_cell t) (zip columns_ colStyles));
          _ ← update_this (set_thead head);
          _ ← match sortOptions t with
              | Some o => add_sort_class o columns_
              | None => mret tt
              end;
          let rowCount := Z.min (Z.of_nat (length rs)) (pageSize t) in
          html ← with_locales
                   (forM (body_row t isSelectedFn rs columns_ colStyles)
                      (seq 0 (Z.to_nat rowCount)));
          update_this (set_tbody html)
      end
  end.

(** The array as [renderRows] leaves it: sorted when a sort state is set. *)
Definition sorted_rows (t : DataTable) (rs : list row) : list row :=
  match sortOptions t with
  | Some o =>
      Array_sort (comparator (own_property (js "order") o)
                    (own_property (js "column") o)) rs
  | None => rs
  end.

(** A raw value that orders as a number: null (it converts to 0) or a
    number other than NaN. *)
Definition numeric (v : value) : bool :=
  match v with
  | VNull => true
  | VNum f => negb (is_nan f)
  | _ => false
  end.

Definition is_string (v : value) : bool :=
  match v with
  | VStr _ => true
  | _ => false
  end.

(** The columns a render shows: the configured ones, or the keys of the
    first row of the sorted array. *)
Definition rendered_columns (t : DataTable) (rs : list row) : list jsstring :=
  default (map fst (default [] (head rs))) (columns t).

(** What keeps a render from throwing: for the columns it shows,
    formatters that return, *)
Definition formatters_total (t : DataTable) (cols : list jsstring) : Prop :=
  forall col f, col ∈ cols -> formatter_for t col = Some f ->
  forall v r cache, exists text cache', f v r cache = (Return text, cache').

(** a header name for the column, configured, inherited or humanized, *)
Definition header_ok (t : DataTable) (col : jsstring) : bool :=
  match display_name t col with
  | Return _ => true
  | Throw _ => false
  end.



(** ** [removeColumns] (lines 255-264) *)

(** [delete o[key]]: the property goes and the others keep their order;
    a key the object lacks is no error. *)
Fixpoint delete_property {V} (key : jsstring) (o : list (jsstring * V))
  : list (jsstring * V) :=
  match o with
  | [] => []
  | (k, v) :: o' =>
      if decide (k = key) then delete_property key o'
      else (k, v) :: delete_property key o'
  end.

(** A write to the row object at index [i] of an array.  The array holds
    the object itself, so the write shows through [this.rows] and every
    other reference to the array; an object that is listed twice, or in
    two arrays, is outside the model. *)
Definition update_row (l : loc) (i : nat) (f : row -> row) : ST World unit :=
  rs ← deref l;
  match rs !! i with
  | Some r => store l (<[i := f r]> rs)
  | None => throw TypeError
  end.

Definition removeColumns (rows_ : loc) (columns_ : list jsstring)
  : ST World unit :=
  rs ← deref rows_;
  _ ← forM (fun i =>
              forM (fun col => update_row rows_ i (delete_property col))
                columns_)
        (seq 0 (length rs));
  mret tt.

(** A row without the columns of a list. *)
Definition without (columns_ : list jsstring) (r : row) : row :=
  foldl (fun r col => delete_property col r) r columns_.

(** ** The vocabulary of the properties *)

(** The three inputs the placeholder is promised for. *)
Definition not_a_number (v : value) : Prop :=
  v = VNull \/ v = VUndefined \/ v = VNum nan.

(** [x] may stand before [y]: the comparator does not ask to swap them. *)
Definition before {A} (cmp : A -> A -> Z) (x y : A) : Prop := (cmp x y <= 0)%Z.

(** The raw values among which [<] is a consistent order: the numbers
    without NaN (null among them), or strings alone. *)
Definition comparable (ok : value -> bool) : Prop :=
  (forall a b, ok a = true -> ok b = true ->
     less_than a b = true -> less_than b a = false)
  /\ (forall a b c, ok a = true -> ok b = true -> ok c = true ->
        less_than a c = true -> less_than a b = true \/ less_than b c = true).

(** A step that leaves the arrays and the reference [this.rows] alone,
    however it completes. *)
Definition keeps_rows {A} (m : ST World A) : Prop :=
  forall w, arrays (snd (m w)) = arrays w
            /\ rows (this (snd (m w))) = rows (this w).

(** [m] run from [s] returns, and [Q] holds of its result and the state
    it leaves. *)
Definition returns {S A} (m : ST S A) (s : S) (Q : A -> S -> Prop) : Prop :=
  exists a s', m s = (Return a, s') /\ Q a s'.

(** The formatters of the module, the three that take a precision at
    [precision]. *)
Definition builtins (precision : option nat)
  : list (value -> ST locales jsstring) :=
  [ (fun v => formatCurrency v precision); formatDollars; formatCPM;
    (fun v => formatPercent v precision); formatPercent0; formatPercent1;
    (fun v => formatFixed v precision); formatFixed0; formatFixed1;
    formatFixed2; formatThousands; formatCalibration ].

(** A cache as the formatters fill it: the entry at a precision is the
    locale [createLocale] makes for that precision.  The array is private
    to the module, so every cache a page can reach is one of these. *)
Definition cache_wf (cache : locales) : Prop :=
  forall p l, cache !! p = Some l -> createLocale p = Return l.

(** What a formatter does to the cache: it only adds to it, a second call
    finds what the first one left, and on a cache the formatters filled
    the result is the one an empty cache gives. *)
Definition cache_friendly (m : ST locales jsstring) : Prop :=
  forall cache,
    cache ⊆ snd (m cache)
    /\ m (snd (m cache)) = m cache
    /\ (cache_wf cache ->
        fst (m cache) = fst (m ∅) /\ cache_wf (snd (m cache))).

(** The two character classes of the alignment test after the dollar
    signs: [[0-9,.\-]] and [[%xKMG]]. *)
Definition body_char (c : N) : bool :=
  is_digit c || existsb (N.eqb c) (js ",.-").
Definition unit_char (c : N) : bool := existsb (N.eqb c) (js "%xKMG").

(** A step that leaves [f] of the world as it was, however it
    completes. *)
Definition preserves {A X} (f : World -> X) (m : ST World A) : Prop :=
  forall w, f (snd (m w)) = f w.

(** The world without its sort state and its record of dispatched events:
    what a click has no business with. *)
Definition outside_sort (w : World) : World :=
  {| this := set_sortOptions None (this w); arrays := arrays w;
     cachedLocales := cachedLocales w; dispatched := [] |}.

(** What a render reads and never writes: the options the component was
    built with, the sort state, and the events dispatched so far. *)
Definition read_by_render (w : World) :=
  (columnNames (this w), columns (this w), pageSize (this w),
   sortOptions (this w), clickableColumns (this w), formatters (this w),
   dispatched w).






(** [m] run from [s] throws [e], and [Q] holds of the state it leaves. *)
Definition throws {S A} (m : ST S A) (s : S) (e : exn) (Q : S -> Prop)
  : Prop :=
  exists s', m s = (Throw e, s') /\ Q s'.

End Runtime.




(** ** [addMetrics] (lines 243-253) *)

(** A canonical array index: the decimal digits, without a leading zero,
    of an integer below 2^32 - 1. *)
Definition array_index (key : jsstring) : option Z :=
  match key with
  | [] => None
  | c :: rest =>
      if forallb is_digit key
         && (negb (c =? 48)%N || bool_decide (rest = []))
         && (digits_value key <? 4294967295)%Z
      then Some (digits_value key) else None
  end.

(** Whether a new property [key] is enumerated before the property [k]:
    the array indices come first, in ascending order, then the other keys
    in the order they were created. *)
Definition enumerated_before (key k : jsstring) : bool :=
  match array_index key, array_index k with
  | Some n, Some m => (n <? m)%Z
  | Some _, None => true
  | None, _ => false
  end.

(** A property the object does not have yet, put where the enumeration
    order has it. *)
Fixpoint define_property (key : jsstring) (v : value) (o : row) : row :=
  match o with
  | [] => [(key, v)]
  | (k, u) :: o' =>
      if enumerated_before key k then (key, v) :: o
      else (k, u) :: define_property key v o'
  end.

(** A new value for a property the object has. *)
Fixpoint assign_property (key : jsstring) (v : value) (o : row) : row :=
  match o with
  | [] => []
  | (k, u) :: o' =>
      if decide (k = key) then (k, v) :: o'
      else (k, u) :: assign_property key v o'
  end.

(** [o[key] = v]: a property the object has keeps its place, a new one
    takes the place the enumeration order gives it. *)
Definition set_property (key : jsstring) (v : value) (o : row) : row :=
  match own_property key o with
  | Some _ => assign_property key v o
  | None => define_property key v o
  end.

(** [addMetrics] assigns to [row], [metric] and [fn] without declaring
    them.  The file is a module, and module code is strict: such an
    assignment throws a [ReferenceError] unless the global object binds
    the name.  Which of the three it binds is a parameter. *)
Record Globals := {
  row_bound : bool;
  metric_bound : bool;
  fn_bound : bool
}.

(** How a call of strict code completes: normally, with an exception of
    the kinds above, or with the [ReferenceError]. *)
Inductive outcome (A : Type) :=
| Normal (a : A)
| Abrupt (e : exn)
| ReferenceError.
Arguments Normal {A} a.
Arguments Abrupt {A} e.
Arguments ReferenceError {A}.

Definition Strict (A : Type) : Type := World -> outcome A * World.

#[global] Instance Strict_ret : MRet Strict :=
  fun A a w => (Normal a, w).

#[global] Instance Strict_bind : MBind Strict :=
  fun A B k m w =>
    match m w with
    | (Normal a, w') => k a w'
    | (Abrupt e, w') => (Abrupt e, w')
    | (ReferenceError, w') => (ReferenceError, w')
    end.

Definition of_ST {A} (m : ST World A) : Strict A :=
  fun w => match m w with
           | (Return a, w') => (Normal a, w')
           | (Throw e, w') => (Abrupt e, w')
           end.

(** An assignment to a name that nothing declares. *)
Definition assign_undeclared (bound : bool) : Strict unit :=
  fun w => if bound then (Normal tt, w) else (ReferenceError, w).

(** [for (x of l) ...]. *)
Fixpoint for_of {A} (f : A -> Strict unit) (l : list A) : Strict unit :=
  match l with
  | [] => mret tt
  | x :: l' => _ ← f x; for_of f l'
  end.

(** A metric function: from the row to the value of the metric; it may
    throw. *)
Definition metricFn : Type := row -> completion value.

(** [metricToFn] is the list of its entries, in the order
    [Object.entries] gives them and the [Map] keeps. *)
Definition addMetrics (g : Globals) (rows_ : loc)
    (metricToFn : list (jsstring * metricFn)) : Strict unit :=
  rs ← of_ST (deref rows_);
  for_of (fun i =>
            _ ← assign_undeclared (row_bound g);
            for_of (fun entry : jsstring * metricFn =>
                      _ ← assign_undeclared (metric_bound g);
                      _ ← assign_undeclared (fn_bound g);
                      rs ← of_ST (deref rows_);
                      match rs !! i with
                      | Some r =>
                          v ← of_ST (lift_completion (entry.2 r));
                          of_ST (store rows_
                                   (<[i := set_property entry.1 v r]> rs))
                      | None => of_ST (throw TypeError)
                      end)
              metricToFn)
    (seq 0 (length rs)).

(** A row with the metrics added, one after the other. *)
Definition with_metrics (metricToFn : list (jsstring * metricFn)) (r : row)
  : row :=
  foldl (fun r (entry : jsstring * metricFn) =>
           match entry.2 r with
           | Return v => set_property entry.1 v r
           | Throw _ => r
           end)
    r metricToFn.

(** ** Sample pages *)

(** *** A sample engine

    The order a sample engine leaves when the comparator is not
    consistent.  It sorts as V8 sorts an array shorter than 64, as one
    run: the run the array starts with, reversed when it descends, and
    the elements after it put in one by one where a binary search places
    them. *)

(** How far the run goes on after [previous]. *)
Fixpoint run_length {A} (cmp : A -> A -> Z) (descending : bool) (previous : A)
    (l : list A) : nat :=
  match l with
  | [] => 0
  | x :: l' =>
      if (if descending then (0 <=? cmp x previous)%Z
          else (cmp x previous <? 0)%Z)
      then 0
      else S (run_length cmp descending x l')
  end.

(** The first run, in ascending order, and the elements after it. *)
Definition CountAndMakeRun {A} (cmp : A -> A -> Z) (l : list A)
  : list A * list A :=
  match l with
  | a :: b :: l' =>
      let descending := (cmp b a <? 0)%Z in
      let n := (2 + run_length cmp descending b l')%nat in
      (if descending then reverse (take n l) else take n l, drop n l)
  | _ => (l, [])
  end.

(** Where the pivot goes among the elements before it, looking between
    [left] and [right]. *)
Fixpoint binary_search {A} (cmp : A -> A -> Z) (pivot : A) (sorted : list A)
    (left right fuel : nat) : nat :=
  match fuel with
  | 0 => left
  | S fuel' =>
      if (left <? right)%nat then
        let mid := (left + Nat.div2 (right - left))%nat in
        match sorted !! mid with
        | Some x =>
            if (cmp pivot x <? 0)%Z
            then binary_search cmp pivot sorted left mid fuel'
            else binary_search cmp pivot sorted (S mid) right fuel'
        | None => left
        end
      else left
  end.

Definition BinaryInsertionSort {A} (cmp : A -> A -> Z) (run rest : list A)
  : list A :=
  foldl (fun sorted pivot =>
           let k := binary_search cmp pivot sorted 0 (length sorted)
                      (S (length sorted)) in
           take k sorted ++ pivot :: drop k sorted)
    run rest.

Definition short_sort {A} (cmp : A -> A -> Z) (l : list A) : list A :=
  let (run, rest) := CountAndMakeRun cmp l in
  BinaryInsertionSort cmp run rest.

Lemma short_sort_perm {A} (cmp : A -> A -> Z) (l : list A) :
  short_sort cmp l ≡ₚ l.
Proof.
  unfold short_sort.
  assert (Hrun : (CountAndMakeRun cmp l).1 ++ (CountAndMakeRun cmp l).2 ≡ₚ l).
  { unfold CountAndMakeRun. destruct l as [|a [|b l']]; [done..|].
    cbv zeta. destruct (cmp b a <? 0)%Z; cbn [fst snd].
    - rewrite reverse_Permutation. by rewrite take_drop.
    - by rewrite take_drop. }
  destruct (CountAndMakeRun cmp l) as [run rest]. cbn [fst snd] in Hrun.
  rewrite <- Hrun. clear Hrun. unfold BinaryInsertionSort.
  revert run. induction rest as [|pivot rest IH]; intros run; cbn [foldl].
  { by rewrite app_nil_r. }
  rewrite IH, <- Permutation_middle, take_drop. simpl.
  apply Permutation_middle.
Qed.

(** The members of [Object.prototype], and those [Array.prototype] puts
    before them. *)
Definition Object_prototype_keys : list jsstring :=
  [ js "constructor"; js "hasOwnProperty"; js "isPrototypeOf";
    js "propertyIsEnumerable"; js "toLocaleString"; js "toString";
    js "valueOf"; js "__proto__"; js "__defineGetter__";
    js "__defineSetter__"; js "__lookupGetter__"; js "__lookupSetter__" ].

Definition Array_prototype_keys : list jsstring :=
  [ js "at"; js "concat"; js "copyWithin"; js "entries"; js "every";
    js "fill"; js "filter"; js "find"; js "findIndex"; js "findLast";
    js "findLastIndex"; js "flat"; js "flatMap"; js "forEach";
    js "includes"; js "indexOf"; js "join"; js "keys"; js "lastIndexOf";
    js "map"; js "pop"; js "push"; js "reduce"; js "reduceRight";
    js "reverse"; js "shift"; js "slice"; js "some"; js "sort";
    js "splice"; js "unshift"; js "values" ].

(** A host for the concrete runs below. *)
Definition sample_host : Host := {|
  StringToNumber_host := fun _ => nan;
  NumberFormat_format := fun _ _ => js "0";
  Number_toFixed := fun _ _ => js "0";
  Number_toString := fun _ => js "0";
  toUpperCase_host := fun c => [c];
  sort_inconsistent := short_sort;
  sort_inconsistent_perm := short_sort_perm;
  Object_prototype_text := fun key =>
    if bool_decide (key ∈ Object_prototype_keys)
    then Some (js "function " ++ key ++ js "() { [native code] }")
    else None;
  Array_prototype_text := fun key =>
    if bool_decide (key ∈ Array_prototype_keys ++ Object_prototype_keys)
    then Some (js "function " ++ key ++ js "() { [native code] }")
    else None;
  Object_prototype_call := fun _ key =>
    if bool_decide (key = js "__proto__")
    then Some (fun _ _ => Throw TypeError)
    else if bool_decide (key ∈ Object_prototype_keys)
    then Some (fun _ _ => Return (js "[object Object]"))
    else None
|}.

(** [new DataTable({ sort: sort, pageSize: pageSize })]. *)
Definition sample_options (sort : option sortState) (pageSize_ : option Z)
  : Options := {|
  options_columnNames := None; options_columns := None;
  options_pageSize := pageSize_; options_sort := sort;
  options_clickableColumns := None; options_formatters := None |}.

(** A page that holds one array of rows, at reference 0, and a component
    just constructed. *)
Definition page_with (options : Options) (rs : list row) : World := {|
  this := constructor options; arrays := {[ 0%nat := rs ]};
  cachedLocales := ∅; dispatched := [] |}.

Definition by_c_ascending : option sortState :=
  Some [(js "column", js "c"); (js "order", js "asc")].


(** A component with a state sorted by column "a", ascending, that has
    rendered the columns "a" and "b". *)
Definition sorted_by_a : World := {|
  this := {|
    columnNames := None; columns := None; pageSize := 30;
    sortOptions := Some [(js "column", js "a"); (js "order", js "asc")];
    clickableColumns := []; thead := []; tbody := []; formatters := ∅;
    rows := None; renderedColumns := Some [js "a"; js "b"] |};
  arrays := ∅; cachedLocales := ∅; dispatched := [] |}.

(** Two rows with a column of numbers and a column of strings. *)
Definition two_rows : list row :=
  [ [(js "c", VNum 2); (js "user-id", VStr (js "u7"))];
    [(js "c", VNum 1); (js "user-id", VStr (js "u8"))] ].

(** A page with the two rows and a component sorted by "c", ascending,
    and the same page with a component that has no sort state. *)
Definition sorted_page : World :=
  page_with (sample_options by_c_ascending None) two_rows.
Definition unsorted_page : World :=
  page_with (sample_options None None) two_rows.


(** A page whose one row has a key with an empty segment. *)
Definition unnamed_page : World :=
  page_with (sample_options None None) [ [(js "a--b", VNum 1)] ].

(** The global object of a page that binds none of the three names, and
    of one that binds them all. *)
Definition module_globals : Globals :=
  {| row_bound := false; metric_bound := false; fn_bound := false |}.
Definition page_globals : Globals :=
  {| row_bound := true; metric_bound := true; fn_bound := true |}.

(** [{ copy: (row) => row.c }]. *)
Definition copy_of_c : list (jsstring * metricFn) :=
  [ (js "copy", fun r => Return (get r (Some (js "c")))) ].

(** A page whose component shows one row with the columns "a" and "b". *)
Definition shown_page : World := {|
  this := {|
    columnNames := None; columns := None; pageSize := 30; sortOptions := None;
    clickableColumns := []; thead := []; tbody := []; formatters := ∅;
    rows := Some 0%nat; renderedColumns := Some [js "a"; js "b"] |};
  arrays := {[ 0%nat := [ [(js "a", VNum 1); (js "b", VNum 2)] ] ]};
  cachedLocales := ∅; dispatched := [] |}.

(** Three rows, the first and the last with the same string in "c". *)
Definition tied_rows : list row :=
  [ [(js "c", VStr (js "x")); (js "n", VNum 1)];
    [(js "c", VStr (js "a")); (js "n", VNum 2)];
    [(js "c", VStr (js "x")); (js "n", VNum 3)] ].

(** The rows that hold "x" in "c". *)
Definition holds_x (r : row) : bool :=
  match get r (Some (js "c")) with
  | VStr s => bool_decide (s = js "x")
  | _ => false
  end.

(** * Properties *)

Ltac st_unfold :=
  unfold mbind, mret, ST_bind, ST_ret, throw, get_state, put_state,
    lift_completion in *.

Section Formatters.
Context `{Host}.

Lemma isValidNumber_undefined : isValidNumber VUndefined = false.
Proof. reflexivity. Qed.

Lemma isValidNumber_null : isValidNumber VNull = false.
Proof. reflexivity. Qed.

Lemma isValidNumber_nan : isValidNumber (VNum nan) = false.
Proof. reflexivity. Qed.

Lemma not_a_number_invalid v : not_a_number v -> isValidNumber v = false.
Proof. intros [-> | [-> | ->]]; reflexivity. Qed.

Lemma not_a_number_CPM v :
  not_a_number v -> (if ToBoolean v then VNum (ToNumber v / 1000)%float else v) = v.
Proof. intros [-> | [-> | ->]]; reflexivity. Qed.

(** Eleven of the twelve formatters answer null, undefined and NaN with
    the placeholder and leave the cache alone. *)
Lemma formatters_placeholder (v : value) (precision : option nat)
    (cache : locales) :
  not_a_number v ->
  Forall (fun fmt : value -> ST locales jsstring =>
            fmt v cache = (Return (js "-"), cache))
    [ (fun v => formatCurrency v precision); formatDollars; formatCPM;
      (fun v => formatPercent v precision); formatPercent0; formatPercent1;
      (fun v => formatFixed v precision); formatFixed0; formatFixed1;
      formatFixed2; formatCalibration ].
Proof.
  intros Hv. pose proof (not_a_number_invalid v Hv) as Hi.
  pose proof (not_a_number_CPM v Hv) as Hc.
  repeat constructor;
    unfold formatDollars, formatCPM, formatPercent0, formatPercent1,
      formatFixed0, formatFixed1, formatFixed2, formatCurrency, formatPercent,
      formatFixed, formatCalibration;
    rewrite ?Hc, Hi; reflexivity.
Qed.

(** C1, at the twelfth formatter.  [formatThousands] divides before it
    validates and appends its unit to whatever [formatFixed] returns:
    undefined and NaN give "-K", and null, which divides to 0, is formatted
    as a number. *)
Theorem formatThousands_placeholder (cache : locales) :
  fst (formatThousands VUndefined cache) = Return (js "-K")
  /\ fst (formatThousands (VNum nan) cache) = Return (js "-K")
  /\ (exists l, fst (formatThousands VNull cache)
                = Return (NumberFormat_format l (VNum 0) ++ js "K"))
  /\ forall v, not_a_number v ->
       fst (formatThousands v cache) <> Return (js "-").
Proof.
  assert (Hnull : exists l, fst (formatThousands VNull cache)
                = Return (NumberFormat_format l (VNum 0) ++ js "K")).
  { unfold formatThousands, formatFixed, cachedLocale. st_unfold. simpl.
    destruct (cache !! Some 1%nat) as [l|]; simpl; eauto. }
  split; [reflexivity|]. split; [reflexivity|]. split; [exact Hnull|].
  intros v [-> | [-> | ->]]; try discriminate.
  destruct Hnull as [l ->]. intros [=Heq].
  destruct (NumberFormat_format l (VNum 0)) as [|c [|d r]]; discriminate.
Qed.

Lemma cachedLocale_returns (precision : option nat) (cache : locales) :
  match precision with
  | Some p => (p <= fractionDigitsLimit)%nat
  | None => True
  end ->
  exists l cache', cachedLocale precision cache = (Return l, cache').
Proof.
  intros Hp. unfold cachedLocale. st_unfold.
  destruct (cache !! precision) as [l|]; [eauto|].
  unfold createLocale. destruct precision as [p|]; [|eauto].
  destruct (Nat.ltb_spec fractionDigitsLimit p); [lia|eauto].
Qed.

Lemma formatFixed_returns (v : value) (precision : option nat)
    (cache : locales) :
  match precision with
  | Some p => (p <= fractionDigitsLimit)%nat
  | None => True
  end ->
  exists s cache', formatFixed v precision cache = (Return s, cache').
Proof.
  intros Hp. unfold formatFixed.
  destruct (isValidNumber v); simpl; [|st_unfold; eauto].
  destruct (cachedLocale_returns precision cache Hp) as (l & c & Hl).
  st_unfold. rewrite Hl. eauto.
Qed.

Lemma formatCurrency_returns (v : value) (precision : option nat)
    (cache : locales) :
  match precision with
  | Some p => (p <= fractionDigitsLimit)%nat
  | None => True
  end ->
  exists s cache', formatCurrency v precision cache = (Return s, cache').
Proof.
  intros Hp. unfold formatCurrency.
  destruct (isValidNumber v); simpl; [|st_unfold; eauto].
  set (p := match precision with None => Some 2%nat | _ => precision end).
  destruct (cachedLocale_returns p cache) as (l & c & Hl).
  { subst p. destruct precision; [exact Hp|unfold fractionDigitsLimit; lia]. }
  st_unfold. rewrite Hl. eauto.
Qed.

Lemma formatPercent_returns (v : value) (precision : option nat)
    (cache : locales) :
  match precision with
  | Some p => (p <= fractionDigitsLimit)%nat
  | None => True
  end ->
  exists s cache', formatPercent v precision cache = (Return s, cache').
Proof.
  intros Hp. unfold formatPercent.
  destruct (isValidNumber v); simpl; [|st_unfold; eauto].
  set (p := match precision with None => Some 2%nat | _ => precision end).
  destruct (cachedLocale_returns p cache) as (l & c & Hl).
  { subst p. destruct precision; [exact Hp|unfold fractionDigitsLimit; lia]. }
  st_unfold. rewrite Hl. eauto.
Qed.

(** C5, amended.  The eleven formatters that go through [Intl] return a
    string for every raw value; [formatCalibration] does for null,
    undefined and every number; [truncate] does for every string, and
    throws for null, undefined and every number. *)
Theorem formatters_return (v : value) (cache : locales) :
  Forall (fun fmt : value -> ST locales jsstring =>
            exists s cache', fmt v cache = (Return s, cache'))
    [ (fun v => formatCurrency v None); formatDollars; formatCPM;
      (fun v => formatPercent v None); formatPercent0; formatPercent1;
      (fun v => formatFixed v None); formatFixed0; formatFixed1;
      formatFixed2; formatThousands ]
  /\ (exists s, formatCalibration VNull cache = (Return s, cache))
  /\ (exists s, formatCalibration VUndefined cache = (Return s, cache))
  /\ (forall f, exists s, formatCalibration (VNum f) cache = (Return s, cache))
  /\ (forall str n, exists s, truncate (VStr str) n = Return s)
  /\ (forall n, truncate VNull n = Throw TypeError
                /\ truncate VUndefined n = Throw TypeError
                /\ forall f, truncate (VNum f) n = Throw TypeError).
Proof.
  split.
  { repeat constructor;
      unfold formatDollars, formatCPM, formatPercent0, formatPercent1,
        formatFixed0, formatFixed1, formatFixed2;
      try (apply formatCurrency_returns; unfold fractionDigitsLimit; simpl; lia);
      try (apply formatPercent_returns; unfold fractionDigitsLimit; simpl; lia);
      try (apply formatFixed_returns; unfold fractionDigitsLimit; simpl; lia).
    unfold formatThousands.
    destruct (formatFixed_returns (VNum (ToNumber v / 1000)%float)
                (Some 1%nat) cache) as (s & c & Hs).
    { unfold fractionDigitsLimit; lia. }
    st_unfold. rewrite Hs. eauto. }
  split; [eexists; reflexivity|]. split; [eexists; reflexivity|].
  split.
  { intros f. unfold formatCalibration.
    destruct (isValidNumber (VNum f)); st_unfold; eauto. }
  split.
  { intros str n. unfold truncate.
    destruct (Z.of_nat (length str) <=? n)%Z; eauto. }
  intros n. repeat split.
Qed.

(** C6, at a string of digits.  The string itself is passed as the start
    index of [substring]: "123456789" converts to a number past the end,
    the two ends are swapped, and the tail is kept instead of the head,
    six characters for a maximum of five.  The two examples of the
    specification, whose strings convert to NaN and to nothing, come out
    as stated. *)
Theorem truncate_digit_string :
  truncate (VStr (js "123456789")) 5 = Return (js "56789" ++ [ELLIPSIS])
  /\ truncate (VStr (js "hello world")) 5 = Return (js "hell" ++ [ELLIPSIS])
  /\ truncate (VStr (js "hi")) 5 = Return (js "hi").
Proof. repeat split; vm_compute; reflexivity. Qed.

(** What [truncate] does on a string whose conversion gives the start
    index 0: for a maximum of at least 1 the head and the ellipsis, [n]
    code units in all. *)
Lemma truncate_prefix (str : jsstring) (n : Z) :
  clamp (ToIntegerOrInfinity (StringToNumber str)) (length str) = 0%nat ->
  (1 <= n < Z.of_nat (length str))%Z ->
  truncate (VStr str) n = Return (take (Z.to_nat (n - 1)) str ++ [ELLIPSIS])
  /\ Z.of_nat (length (take (Z.to_nat (n - 1)) str ++ [ELLIPSIS])) = n.
Proof.
  intros Hstart Hn. unfold truncate.
  destruct (Z.leb_spec (Z.of_nat (length str)) n); [lia|].
  unfold substring. simpl ToNumber. rewrite Hstart. simpl clamp.
  replace (Z.to_nat (Z.min (Z.max (n - 1) 0) (Z.of_nat (length str))))
    with (Z.to_nat (n - 1)) by lia.
  rewrite Nat.min_0_l, Nat.max_0_l, Nat.sub_0_r. simpl drop.
  split; [reflexivity|].
  rewrite length_app, length_take. simpl. lia.
Qed.

(** A string with a letter that no numeric literal has starts at 0. *)
Lemma never_numeric_start (str : jsstring) :
  existsb never_numeric str = true ->
  clamp (ToIntegerOrInfinity (StringToNumber str)) (length str) = 0%nat.
Proof.
  intros Hex. unfold StringToNumber. destruct str as [|c str]; [reflexivity|].
  destruct (forallb is_digit (c :: str)) eqn:Hd.
  - exfalso. apply existsb_exists in Hex as (x & Hin & Hx).
    rewrite forallb_forall in Hd. specialize (Hd x Hin).
    unfold is_digit in Hd. apply andb_prop in Hd as [H1 H2].
    apply N.leb_le in H1, H2. unfold never_numeric in Hx.
    apply existsb_exists in Hx as (y & Hy & Hxy).
    apply N.eqb_eq in Hxy. subst y. simpl in Hy.
    repeat (destruct Hy as [Hy|Hy]; [subst x; lia|]). destruct Hy.
  - rewrite Hex. reflexivity.
Qed.

End Formatters.

Section ColumnNames.
Context `{Host}.

Lemma starts_with_same_length (p s : jsstring) :
  length s = length p -> starts_with p s = true -> s = p.
Proof.
  revert s. induction p as [|a p IH]; intros [|b s] Hlen Hs;
    simpl in *; try discriminate; [reflexivity|].
  apply andb_prop in Hs as [Hab Hs]. apply N.eqb_eq in Hab. subst b.
  f_equal. apply IH; [lia|exact Hs].
Qed.

Lemma starts_with_refl (p : jsstring) : starts_with p p = true.
Proof. induction p as [|a p IH]; simpl; [|rewrite N.eqb_refl]; auto. Qed.

(** The scan for a match at the end of the string finds the suffix. *)
Lemma replace_at_end_suffix (pat rep s : jsstring) :
  replace_at_end pat rep s
  = if decide (pat `suffix_of` s)
    then take (length s - length pat) s ++ rep else s.
Proof.
  induction s as [|c s IH].
  - simpl. destruct pat as [|a pat]; simpl.
    + destruct (decide ([] `suffix_of` ([] : jsstring))) as [|Hn];
        [reflexivity|]. destruct Hn. apply suffix_nil.
    + destruct (decide ((a :: pat) `suffix_of` [])) as [Hs|]; [|reflexivity].
      apply suffix_nil_inv in Hs. discriminate.
  - cbn [replace_at_end].
    destruct ((length (c :: s) =? length pat)%nat && starts_with pat (c :: s))
      eqn:Hhere.
    + apply andb_prop in Hhere as [Hlen Hst]. apply Nat.eqb_eq in Hlen.
      pose proof (starts_with_same_length _ _ Hlen Hst) as Heq.
      rewrite <- Heq. rewrite decide_True by reflexivity.
      rewrite Nat.sub_diag. reflexivity.
    + rewrite IH. destruct (decide (pat `suffix_of` (c :: s))) as [Hs|Hs].
      * destruct Hs as [[|x k] Hk]; simpl in Hk.
        { subst pat. rewrite Nat.eqb_refl, starts_with_refl in Hhere.
          discriminate. }
        injection Hk as Hc Hk. subst x.
        assert (Hs : pat `suffix_of` s) by (by exists k).
        rewrite decide_True by exact Hs.
        pose proof (suffix_length _ _ Hs) as Hle.
        replace (length (c :: s) - length pat)%nat
          with (S (length s - length pat)) by (simpl; lia).
        reflexivity.
      * rewrite decide_False; [reflexivity|].
        intros Hs'. apply Hs. by apply suffix_cons_r.
Qed.

Lemma map_completion_capitalize (words : list jsstring) :
  map_completion capitalize words
  = if forallb nonempty words then Return (capitalized <$> words)
    else Throw TypeError.
Proof.
  induction words as [|w words IH]; [reflexivity|].
  simpl. destruct w as [|c w]; [reflexivity|]. simpl.
  rewrite IH. destruct (forallb nonempty words); reflexivity.
Qed.

(** C4, at "pct-qps".  Only the first letter of a segment is capitalized,
    so the key of the source's own example gives "% Qps" and not the
    "% QPS" its comment announces.  The other two examples come out as
    stated, and in general [formatColumnName] reads nothing but its
    argument: it returns the humanized name of the specification whenever
    every segment between dashes has a first letter, and throws
    otherwise. *)
Theorem formatColumnName_humanize :
  (forall key,
     formatColumnName key
     = if forallb nonempty (segments key) then Return (humanize key)
       else Throw TypeError)
  /\ formatColumnName (js "pct-qps") = Return (js "% Qps")
  /\ formatColumnName (js "pct-qps") <> Return (js "% QPS")
  /\ formatColumnName (js "user-id") = Return (js "User ID")
  /\ formatColumnName (js "spend-delta") = Return (js "Spend " ++ [DELTA]).
Proof.
  split; [|repeat split; try (vm_compute; reflexivity);
           vm_compute; discriminate].
  intros key. unfold formatColumnName, humanize, segments, trailing_id.
  rewrite replace_at_end_suffix, map_completion_capitalize.
  change (length (js "-id")) with 3%nat.
  destruct (forallb nonempty _); reflexivity.
Qed.

End ColumnNames.

Section Json.

Lemma unhex_hex_digit (n : N) : (n < 16)%N -> unhex (hex_digit n) = n.
Proof.
  intros Hn. unfold unhex, hex_digit.
  destruct (N.ltb_spec n 10).
  - destruct (N.ltb_spec (48 + n) 58); lia.
  - destruct (N.ltb_spec (87 + n) 58); lia.
Qed.

Lemma hex_digits_value (c : N) :
  (c < 65536)%N ->
  (4096 * (c / 4096) + 256 * ((c / 256) mod 16) + 16 * ((c / 16) mod 16)
   + c mod 16 = c)%N.
Proof.
  intros Hc.
  pose proof (N.div_mod c 4096). pose proof (N.div_mod c 256).
  pose proof (N.div_mod c 16). pose proof (N.div_mod (c / 256) 16).
  pose proof (N.div_mod (c / 16) 16). pose proof (N.mod_lt c 4096).
  pose proof (N.mod_lt c 256). pose proof (N.mod_lt c 16).
  pose proof (N.mod_lt (c / 256) 16). pose proof (N.mod_lt (c / 16) 16).
  assert (c / 256 / 16 = c / 4096)%N by (rewrite N.Div0.div_div; reflexivity).
  assert (c / 16 / 16 = c / 256)%N by (rewrite N.Div0.div_div; reflexivity).
  lia.
Qed.

Lemma unquote_UnicodeEscape (c : N) (r : jsstring) :
  (c < 65536)%N ->
  unquote_step (UnicodeEscape c ++ r) = Some ([c], r).
Proof.
  intros Hc. unfold UnicodeEscape. cbn -[N.mul N.add N.div N.modulo unhex hex_digit].
  assert (c / 4096 < 16)%N by (apply N.Div0.div_lt_upper_bound; lia).
  rewrite !unhex_hex_digit by (try assumption; apply N.mod_lt; lia).
  rewrite hex_digits_value by exact Hc. reflexivity.
Qed.

(** One step of the quoting can be read back: the text of a non-empty
    string starts with the text of a non-empty prefix of it, and what
    follows is the text of the rest. *)
Lemma unquote_step_quote (c : N) (s r : jsstring) :
  exists pre rest,
    c :: s = pre ++ rest /\ (length rest < length (c :: s))%nat
    /\ unquote_step (QuoteJSONString_body (c :: s) ++ r)
       = Some (pre, QuoteJSONString_body rest ++ r).
Proof.
  cbn [QuoteJSONString_body].
  repeat match goal with
  | |- context [if (c =? ?k)%N then _ else _] =>
      destruct (N.eqb_spec c k);
      [subst c; exists [k], s; repeat split; simpl; lia|]
  end.
  destruct (N.ltb_spec c 32).
  { exists [c], s. rewrite <- app_assoc, unquote_UnicodeEscape by lia.
    repeat split; simpl; lia. }
  destruct (is_leading_surrogate c) eqn:Hlead.
  { unfold is_leading_surrogate in Hlead.
    apply andb_prop in Hlead as [Hl1 Hl2]. apply N.leb_le in Hl1, Hl2.
    destruct s as [|d s].
    - exists [c], []. rewrite unquote_UnicodeEscape by lia.
      repeat split; simpl; lia.
    - destruct (is_trailing_surrogate d).
      + exists [c; d], s. split; [reflexivity|]. split; [simpl; lia|].
        simpl. destruct (N.eqb_spec c 34); [lia|].
        destruct (N.eqb_spec c 92); [lia|].
        unfold is_leading_surrogate.
        destruct (N.leb_spec 55296 c); [|lia].
        destruct (N.leb_spec c 56319); [|lia]. reflexivity.
      + exists [c], (d :: s). rewrite <- app_assoc, unquote_UnicodeEscape by lia.
        repeat split; simpl; lia. }
  destruct (is_trailing_surrogate c) eqn:Htrail.
  { unfold is_trailing_surrogate in Htrail.
    apply andb_prop in Htrail as [Hl1 Hl2]. apply N.leb_le in Hl1, Hl2.
    exists [c], s. rewrite <- app_assoc, unquote_UnicodeEscape by lia.
    repeat split; simpl; lia. }
  exists [c], s. split; [reflexivity|]. split; [simpl; lia|].
  simpl. destruct (N.eqb_spec c 34); [lia|].
  destruct (N.eqb_spec c 92); [lia|]. rewrite Hlead. reflexivity.
Qed.

(** Two strings whose quoted texts agree up to the closing quote are the
    same string. *)
Lemma QuoteJSONString_body_inj (s1 s2 r1 r2 : jsstring) :
  QuoteJSONString_body s1 ++ 34%N :: r1 = QuoteJSONString_body s2 ++ 34%N :: r2 ->
  s1 = s2 /\ r1 = r2.
Proof.
  remember (length s1) as n eqn:Hn. revert s1 s2 Hn.
  induction n as [n IH] using lt_wf_ind. intros s1 s2 Hn Heq.
  destruct s1 as [|c1 s1], s2 as [|c2 s2].
  - simpl in Heq. by injection Heq as ->.
  - destruct (unquote_step_quote c2 s2 (34%N :: r2)) as (p & q & _ & _ & Hq).
    rewrite <- Heq in Hq. discriminate Hq.
  - destruct (unquote_step_quote c1 s1 (34%N :: r1)) as (p & q & _ & _ & Hq).
    rewrite Heq in Hq. discriminate Hq.
  - destruct (unquote_step_quote c1 s1 (34%N :: r1))
      as (p1 & q1 & Hs1 & Hlt & Hq1).
    destruct (unquote_step_quote c2 s2 (34%N :: r2))
      as (p2 & q2 & Hs2 & _ & Hq2).
    rewrite Heq, Hq2 in Hq1. injection Hq1 as Hp Hrest.
    destruct (IH (length q1) ltac:(lia) q1 q2 eq_refl (eq_sym Hrest))
      as [Hq Hr].
    split; [|exact Hr]. rewrite Hs1, Hs2. congruence.
Qed.

Lemma QuoteJSONString_inj (s1 s2 r1 r2 : jsstring) :
  QuoteJSONString s1 ++ r1 = QuoteJSONString s2 ++ r2 -> s1 = s2 /\ r1 = r2.
Proof.
  unfold QuoteJSONString. rewrite <- !app_assoc. simpl.
  intros [=Heq]. by apply QuoteJSONString_body_inj.
Qed.

Lemma SerializeJSONMembers_cons (k v : jsstring) (o : sortState) (r : jsstring) :
  SerializeJSONMembers ((k, v) :: o) ++ 125%N :: r
  = QuoteJSONString k
    ++ 58%N :: QuoteJSONString v
    ++ match o with
       | [] => 125%N :: r
       | _ => 44%N :: SerializeJSONMembers o ++ 125%N :: r
       end.
Proof.
  cbn [SerializeJSONMembers]. destruct o as [|[k' v'] o];
    rewrite <- ?app_assoc; simpl; rewrite <- ?app_assoc; reflexivity.
Qed.

Lemma SerializeJSONMembers_inj (o1 o2 : sortState) (r1 r2 : jsstring) :
  SerializeJSONMembers o1 ++ 125%N :: r1 = SerializeJSONMembers o2 ++ 125%N :: r2 ->
  o1 = o2.
Proof.
  revert o2. induction o1 as [|[k1 v1] o1 IH]; intros [|[k2 v2] o2] Heq.
  - reflexivity.
  - rewrite SerializeJSONMembers_cons in Heq. discriminate Heq.
  - rewrite SerializeJSONMembers_cons in Heq. discriminate Heq.
  - rewrite !SerializeJSONMembers_cons in Heq.
    apply QuoteJSONString_inj in Heq as [-> Heq]. injection Heq as Heq.
    rewrite <- !app_assoc in Heq. simpl in Heq.
    apply QuoteJSONString_body_inj in Heq as [-> Heq]. f_equal.
    destruct o1 as [|p1 o1], o2 as [|p2 o2]; try discriminate Heq;
      [reflexivity|].
    injection Heq as Heq. by apply IH.
Qed.

(** [JSON.stringify] tells any two sort states apart: the same text means
    the same properties with the same values in the same order. *)
Lemma JSON_stringify_inj (a b : option sortState) :
  JSON_stringify a = JSON_stringify b -> a = b.
Proof.
  destruct a as [o1|], b as [o2|]; simpl; try discriminate; [|reflexivity].
  intros [=Heq]. f_equal. by apply (SerializeJSONMembers_inj _ _ [] []).
Qed.

End Json.

Section SortState.

Lemma set_sortOptions_same (t : DataTable) :
  set_sortOptions (sortOptions t) t = t.
Proof. by destruct t. Qed.

Lemma with_this_same (w : World) : with_this (this w) w = w.
Proof. by destruct w. Qed.

(** [setSortOptions] as a function of the stored state and its argument. *)
Lemma setSortOptions_run (next : option sortState) (w : World) :
  setSortOptions next w
  = (Return tt, with_this (set_sortOptions next (this w)) w).
Proof.
  unfold setSortOptions, update_this, get_this, set_this. st_unfold.
  destruct (decide (JSON_stringify (sortOptions (this w))
                    = JSON_stringify next)) as [Heq|Hne]; [|reflexivity].
  apply JSON_stringify_inj in Heq. rewrite <- Heq.
  by rewrite set_sortOptions_same, with_this_same.
Qed.

(** C7, amended.  [setSortOptions(next)] leaves the component as it is
    exactly when [next] has the properties of the stored state with the
    same values in the same order, which is when their JSON texts agree;
    in every other case the stored state becomes [next].  So a [next] that
    is not deep-equal to the stored state replaces it, and one that is
    deep-equal leaves a state deep-equal to the one before. *)
Theorem setSortOptions_replaces (next : option sortState) (w : World) :
  (JSON_stringify next = JSON_stringify (sortOptions (this w))
   <-> next = sortOptions (this w))
  /\ setSortOptions next w
     = (Return tt,
        if decide (next = sortOptions (this w)) then w
        else with_this (set_sortOptions next (this w)) w)
  /\ (~ deep_equal (sortOptions (this w)) next ->
      sortOptions (this (snd (setSortOptions next w))) = next)
  /\ (deep_equal (sortOptions (this w)) next ->
      deep_equal (sortOptions (this w))
        (sortOptions (this (snd (setSortOptions next w))))).
Proof.
  rewrite setSortOptions_run. repeat split.
  - apply JSON_stringify_inj.
  - by intros ->.
  - destruct (decide (next = sortOptions (this w))) as [->|]; [|reflexivity].
    by rewrite set_sortOptions_same, with_this_same.
  - trivial.
Qed.


End SortState.


(** A state on another column is not deep-equal to the stored one and
    replaces it. *)
Lemma setSortOptions_replaces_witness :
  sortOptions
    (this (snd (setSortOptions
                  (Some [(js "column", js "b"); (js "order", js "desc")])
                  sorted_by_a)))
  = Some [(js "column", js "b"); (js "order", js "desc")].
Proof.
  destruct (setSortOptions_replaces
              (Some [(js "column", js "b"); (js "order", js "desc")])
              sorted_by_a) as (_ & _ & Hreplaced & _).
  apply Hreplaced. simpl. intros Hperm.
  apply (Permutation_in (js "column", js "a")) in Hperm; [|left; reflexivity].
  destruct Hperm as [Hin|[Hin|[]]]; discriminate Hin.
Defined.

(** C7, as stated, at a state and an argument that differ in key order
    only: the two are deep-equal, and the call stores the argument, whose
    keys come in the other order. *)
Lemma setSortOptions_key_order :
  deep_equal (sortOptions (this sorted_by_a))
    (Some [(js "order", js "asc"); (js "column", js "a")])
  /\ sortOptions
       (this (snd (setSortOptions
                     (Some [(js "order", js "asc"); (js "column", js "a")])
                     sorted_by_a)))
     = Some [(js "order", js "asc"); (js "column", js "a")]
  /\ sortOptions
       (this (snd (setSortOptions
                     (Some [(js "order", js "asc"); (js "column", js "a")])
                     sorted_by_a)))
     <> sortOptions (this sorted_by_a).
Proof.
  split; [apply perm_swap|]. split; [vm_compute; reflexivity|].
  vm_compute. discriminate.
Qed.

(** ** The order of raw values *)

Section Order.
Context `{Host}.

Lemma Prim2SF_not_nan (f : float) : is_nan f = false -> Prim2SF f <> S754_nan.
Proof.
  intros Hf. unfold Prim2SF. rewrite Hf.
  destruct (is_zero f); [discriminate|].
  destruct (is_infinity f); [discriminate|].
  destruct (Z.frexp f) as [r e].
  destruct (shr_fexp _ _ _ _ _) as [shr e'].
  destruct (shr_m shr); discriminate.
Qed.

Ltac order_cases :=
  repeat match goal with
  | |- context [Z.compare ?a ?b] => destruct (Z.compare_spec a b)
  | H : context [Z.compare ?a ?b] |- _ => destruct (Z.compare_spec a b)
  | |- context [Pos.compare_cont Eq ?a ?b] =>
      change (Pos.compare_cont Eq a b) with (Pos.compare a b);
      destruct (Pos.compare_spec a b)
  | H : context [Pos.compare_cont Eq ?a ?b] |- _ =>
      change (Pos.compare_cont Eq a b) with (Pos.compare a b) in H;
      destruct (Pos.compare_spec a b)
  end;
  simpl in *; try discriminate; try lia; auto.

Lemma SFltb_asym (a b : spec_float) : SFltb a b = true -> SFltb b a = false.
Proof.
  unfold SFltb, SFcompare.
  destruct a as [[]|[]| |[] ma ea], b as [[]|[]| |[] mb eb];
    simpl; try discriminate; try reflexivity; intros Hab; order_cases.
Qed.

Lemma SFltb_negtrans (a b c : spec_float) :
  b <> S754_nan ->
  SFltb a c = true -> SFltb a b = true \/ SFltb b c = true.
Proof.
  unfold SFltb, SFcompare. intros Hb.
  destruct b as [[]|[]| |[] mb eb]; [..|congruence| |];
    destruct a as [[]|[]| |[] ma ea], c as [[]|[]| |[] mc ec];
    simpl; try discriminate; auto; intros Hac; order_cases.
Qed.

Lemma ltb_asym (x y : float) : (x <? y)%float = true -> (y <? x)%float = false.
Proof. rewrite !ltb_spec. apply SFltb_asym. Qed.

Lemma ltb_negtrans (x y z : float) :
  is_nan y = false ->
  (x <? z)%float = true -> (x <? y)%float = true \/ (y <? z)%float = true.
Proof.
  intros Hy. rewrite !ltb_spec. apply SFltb_negtrans.
  by apply Prim2SF_not_nan.
Qed.

Lemma string_lt_asym (s t : jsstring) :
  string_lt s t = true -> string_lt t s = false.
Proof.
  revert t. induction s as [|a s IH]; intros [|b t]; simpl; try done.
  intros Hst. apply orb_prop in Hst as [Hab|Hst].
  - apply N.ltb_lt in Hab.
    destruct (N.ltb_spec b a); [lia|]. destruct (N.eqb_spec b a); [lia|done].
  - apply andb_prop in Hst as [Hab Hst]. apply N.eqb_eq in Hab. subst b.
    rewrite N.ltb_irrefl, N.eqb_refl. simpl. by apply IH.
Qed.

Lemma string_lt_negtrans (s t u : jsstring) :
  string_lt s u = true -> string_lt s t = true \/ string_lt t u = true.
Proof.
  revert t u. induction s as [|a s IH]; intros [|b t] [|c u]; simpl;
    try done; auto.
  intros Hsu.
  destruct (N.ltb_spec a b); [by left|]. destruct (N.ltb_spec b c); [by right|].
  simpl. apply orb_prop in Hsu as [Hac|Hsu].
  - apply N.ltb_lt in Hac. lia.
  - apply andb_prop in Hsu as [Hac Hsu]. apply N.eqb_eq in Hac. subst c.
    assert (a = b) as -> by lia. rewrite N.eqb_refl. simpl. by apply IH.
Qed.

End Order.

(** ** Sorting *)

Section Sorting.
Context {A : Type} (cmp : A -> A -> Z).

Lemma insert_sorted_perm (x : A) (l : list A) :
  insert_sorted cmp x l ≡ₚ x :: l.
Proof.
  induction l as [|y l IH]; simpl; [done|].
  destruct (0 <? cmp x y)%Z; [|done].
  rewrite IH. apply perm_swap.
Qed.

Lemma stable_sort_perm (l : list A) : stable_sort cmp l ≡ₚ l.
Proof.
  induction l as [|x l IH]; simpl; [done|].
  by rewrite insert_sorted_perm, IH.
Qed.

Lemma stable_sort_length (l : list A) : length (stable_sort cmp l) = length l.
Proof. by rewrite stable_sort_perm. Qed.

Context (P : A -> Prop).
Hypothesis before_trans :
  forall a b c, P a -> P b -> P c -> before cmp a b -> before cmp b c -> before cmp a c.
Hypothesis before_total : forall a b, P a -> P b -> before cmp a b \/ before cmp b a.

Lemma insert_sorted_sorted (x : A) (l : list A) :
  P x -> Forall P l -> StronglySorted (before cmp) l ->
  StronglySorted (before cmp) (insert_sorted cmp x l).
Proof using before_trans before_total.
  intros Hx HP Hs. induction Hs as [|y l Hs IH Hy]; simpl.
  { repeat constructor. }
  apply Forall_cons in HP as [HPy HP].
  destruct (Z.ltb_spec 0 (cmp x y)) as [Hgt|Hle].
  - constructor; [by apply IH|].
    rewrite insert_sorted_perm. constructor; [|done].
    destruct (before_total x y Hx HPy) as [Hb|Hb]; [|done].
    unfold before in Hb. lia.
  - constructor; [by constructor|]. constructor; [done|].
    rewrite Forall_forall in Hy, HP. apply Forall_forall. intros z Hz.
    apply (before_trans x y z); auto.
Qed.

Lemma stable_sort_sorted (l : list A) :
  Forall P l -> StronglySorted (before cmp) (stable_sort cmp l).
Proof using before_trans before_total.
  induction l as [|x l IH]; simpl; [constructor|].
  intros [Hx HP]%Forall_cons. apply insert_sorted_sorted; auto.
  by rewrite stable_sort_perm.
Qed.

(** A list that is in order already comes back as it is. *)
Lemma stable_sort_fixed (l : list A) :
  StronglySorted (before cmp) l -> stable_sort cmp l = l.
Proof using Type.
  induction 1 as [|x l Hs IH Hx]; [done|].
  unfold stable_sort in *. simpl. rewrite IH.
  destruct l as [|y l']; [done|]. simpl.
  apply Forall_cons in Hx as [Hxy _]. unfold before in Hxy.
  by destruct (Z.ltb_spec 0 (cmp x y)); [lia|].
Qed.

Lemma consistent_true (l : list A) :
  (forall a, a ∈ l -> cmp a a = 0%Z) ->
  (forall a b, a ∈ l -> b ∈ l -> cmp a b = 0%Z -> cmp b a = 0%Z) ->
  (forall a b c, a ∈ l -> b ∈ l -> c ∈ l ->
     cmp a b = 0%Z -> cmp b c = 0%Z -> cmp a c = 0%Z) ->
  (forall a b c, a ∈ l -> b ∈ l -> c ∈ l ->
     (cmp a b < 0)%Z -> (cmp b c < 0)%Z -> (cmp a c < 0)%Z) ->
  (forall a b c, a ∈ l -> b ∈ l -> c ∈ l ->
     (0 < cmp a b)%Z -> (0 < cmp b c)%Z -> (0 < cmp a c)%Z) ->
  consistent cmp l = true.
Proof using Type.
  intros Hrefl Hsym Heq Hlt Hgt. unfold consistent.
  apply forallb_forall. intros a Ha%list_elem_of_In.
  apply andb_true_intro. split; [by apply Z.eqb_eq, Hrefl|].
  apply forallb_forall. intros b Hb%list_elem_of_In.
  apply andb_true_intro. split.
  { apply implb_true_iff. rewrite !Z.eqb_eq. by apply Hsym. }
  apply forallb_forall. intros c Hc%list_elem_of_In.
  rewrite !andb_true_iff, !implb_true_iff, !andb_true_iff, !Z.eqb_eq,
    !Z.ltb_lt.
  repeat split; intros [? ?]; eauto.
Qed.

End Sorting.

Lemma StronglySorted_lookup_lt {A} (R : A -> A -> Prop) (l : list A)
    (i j : nat) (x y : A) :
  StronglySorted R l -> (i < j)%nat -> l !! i = Some x -> l !! j = Some y ->
  R x y.
Proof.
  intros Hs. revert i j. induction Hs as [|z l Hs IH Hz]; intros i j Hij Hi Hj.
  { by rewrite lookup_nil in Hi. }
  destruct j as [|j]; [lia|]. destruct i as [|i]; simpl in *.
  - injection Hi as ->. rewrite Forall_forall in Hz. apply Hz.
    by eapply list_elem_of_lookup_2.
  - apply (IH i j); [lia|done..].
Qed.

Section RowOrder.
Context `{Host}.

Lemma compare_before (a b : value) :
  (less_than a b = true -> less_than b a = false) ->
  ((compare a b <= 0)%Z <-> less_than b a = false).
Proof.
  unfold compare, greater_than. intros Hasym.
  destruct (less_than a b); [specialize (Hasym eq_refl); rewrite Hasym; lia|].
  destruct (less_than b a); split; (lia || done).
Qed.

Lemma less_than_numeric (a b : value) :
  numeric a = true -> numeric b = true ->
  less_than a b = (ToNumber a <? ToNumber b)%float
  /\ is_nan (ToNumber a) = false /\ is_nan (ToNumber b) = false.
Proof.
  destruct a as [| |f|s], b as [| |g|t]; simpl; try done;
    intros Ha Hb; repeat split; try reflexivity;
    by apply negb_true_iff.
Qed.

Lemma comparable_numeric : comparable numeric.
Proof.
  split.
  - intros a b Ha Hb. destruct (less_than_numeric a b Ha Hb) as (-> & _ & _).
    destruct (less_than_numeric b a Hb Ha) as (-> & _ & _). apply ltb_asym.
  - intros a b c Ha Hb Hc.
    destruct (less_than_numeric a c Ha Hc) as (-> & _ & _).
    destruct (less_than_numeric a b Ha Hb) as (-> & _ & Hnan).
    destruct (less_than_numeric b c Hb Hc) as (-> & _ & _).
    by apply ltb_negtrans.
Qed.

Lemma comparable_string : comparable is_string.
Proof.
  split.
  - intros [| | |s] [| | |t]; try done. intros _ _. apply string_lt_asym.
  - intros [| | |s] [| | |t] [| | |u]; try done. intros _ _ _.
    apply string_lt_negtrans.
Qed.

Lemma Array_sort_perm (cmp : row -> row -> Z) (l : list row) :
  Array_sort cmp l ≡ₚ l.
Proof.
  unfold Array_sort. destruct (consistent cmp l).
  - apply stable_sort_perm.
  - apply sort_inconsistent_perm.
Qed.

Lemma Array_sort_length (cmp : row -> row -> Z) (l : list row) :
  length (Array_sort cmp l) = length l.
Proof. by rewrite Array_sort_perm. Qed.

Lemma Array_sort_consistent (cmp : row -> row -> Z) (l : list row) :
  consistent cmp l = true -> Array_sort cmp l = stable_sort cmp l.
Proof. unfold Array_sort. by intros ->. Qed.

(** The three answers of [compare] on two comparable values. *)
Lemma compare_answers (ok : value -> bool) (a b : value) :
  comparable ok -> ok a = true -> ok b = true ->
  ((compare a b < 0)%Z <-> less_than a b = true)
  /\ ((0 < compare a b)%Z <-> less_than b a = true)
  /\ (compare a b = 0%Z <-> less_than a b = false /\ less_than b a = false).
Proof.
  intros [Hasym _] Ha Hb. unfold compare, greater_than.
  pose proof (Hasym a b Ha Hb) as Hab. pose proof (Hasym b a Hb Ha) as Hba.
  destruct (less_than a b), (less_than b a);
    repeat split; intros; try lia; try done;
    try (specialize (Hab eq_refl); discriminate);
    try (destruct_and?; discriminate).
Qed.

(** On a column of comparable values the comparator is consistent. *)
Lemma comparator_consistent (ok : value -> bool)
    (order column : option jsstring) (rs : list row) :
  comparable ok ->
  Forall (fun r => ok (get r column) = true) rs ->
  consistent (comparator order column) rs = true.
Proof.
  intros Hok Hrs. rewrite Forall_forall in Hrs.
  pose proof Hok as [Hasym Hneg].
  set (lt a b := less_than (get a column) (get b column)).
  assert (Hspec : forall a b, a ∈ rs -> b ∈ rs ->
            ((compare (get a column) (get b column) < 0)%Z <-> lt a b = true)
            /\ ((0 < compare (get a column) (get b column))%Z <-> lt b a = true)
            /\ (compare (get a column) (get b column) = 0%Z
                <-> lt a b = false /\ lt b a = false)).
  { intros a b Ha Hb. apply (compare_answers ok); auto. }
  assert (Hirrefl : forall a, a ∈ rs -> lt a a = false).
  { intros a Ha. destruct (lt a a) eqn:Haa; [|done].
    by rewrite <- (Hasym _ _ (Hrs a Ha) (Hrs a Ha) Haa). }
  assert (Htrans : forall a b c, a ∈ rs -> b ∈ rs -> c ∈ rs ->
            lt a b = true -> lt b c = true -> lt a c = true).
  { intros a b c Ha Hb Hc Hab Hbc.
    destruct (Hneg _ (get c column) _ (Hrs a Ha) (Hrs c Hc) (Hrs b Hb) Hab)
      as [Hac|Hcb]; [done|].
    by rewrite (Hasym _ _ (Hrs b Hb) (Hrs c Hc) Hbc) in Hcb. }
  assert (Hties : forall a b c, a ∈ rs -> b ∈ rs -> c ∈ rs ->
            lt a b = false -> lt b c = false -> lt a c = false).
  { intros a b c Ha Hb Hc Hab Hbc. destruct (lt a c) eqn:Hac; [|done].
    unfold lt in *.
    destruct (Hneg _ (get b column) _ (Hrs a Ha) (Hrs b Hb) (Hrs c Hc) Hac);
      congruence. }
  clearbody lt. clear Hasym Hneg Hok Hrs.
  apply consistent_true; unfold comparator; destruct (bool_decide _).
  - intros a Ha. apply Hspec; auto.
  - intros a Ha. apply Hspec; auto.
  - intros a b Ha Hb Hab. apply Hspec in Hab as [? ?]; [|done..].
    by apply Hspec.
  - intros a b Ha Hb Hab. apply Hspec in Hab as [? ?]; [|done..].
    by apply Hspec.
  - intros a b c Ha Hb Hc Hab Hbc.
    apply Hspec in Hab as [? ?]; [|done..].
    apply Hspec in Hbc as [? ?]; [|done..]. apply Hspec; eauto.
  - intros a b c Ha Hb Hc Hab Hbc.
    apply Hspec in Hab as [? ?]; [|done..].
    apply Hspec in Hbc as [? ?]; [|done..]. apply Hspec; eauto.
  - intros a b c Ha Hb Hc Hab Hbc.
    apply Hspec in Hab; [|done..]. apply Hspec in Hbc; [|done..].
    apply Hspec; eauto.
  - intros a b c Ha Hb Hc Hab Hbc.
    apply Hspec in Hab; [|done..]. apply Hspec in Hbc; [|done..].
    apply Hspec; eauto.
  - intros a b c Ha Hb Hc Hab Hbc.
    apply Hspec in Hab; [|done..]. apply Hspec in Hbc; [|done..].
    apply Hspec; eauto.
  - intros a b c Ha Hb Hc Hab Hbc.
    apply Hspec in Hab; [|done..]. apply Hspec in Hbc; [|done..].
    apply Hspec; eauto.
Qed.

(** On a column of comparable values the array comes out ordered: a row
    whose value is less stands before (after, when the order is not
    "asc") every row whose value is more. *)
Lemma Array_sort_comparator (ok : value -> bool) (order column : option jsstring)
    (rs : list row) (i j : nat) (r1 r2 : row) :
  comparable ok ->
  Forall (fun r => ok (get r column) = true) rs ->
  Array_sort (comparator order column) rs !! i = Some r1 ->
  Array_sort (comparator order column) rs !! j = Some r2 ->
  less_than (get r1 column) (get r2 column) = true ->
  if bool_decide (order = Some (js "asc")) then (i < j)%nat else (j < i)%nat.
Proof.
  intros Hcomp Hok.
  rewrite (Array_sort_consistent _ _ (comparator_consistent _ _ _ _ Hcomp Hok)).
  revert Hcomp. intros [Hasym Hneg] Hi Hj Hlt.
  set (P := fun r : row => ok (get r column) = true) in *.
  assert (Hin : forall k r, stable_sort (comparator order column) rs !! k = Some r ->
                            P r).
  { intros k r Hk. rewrite Forall_forall in Hok. apply Hok.
    rewrite <- (stable_sort_perm (comparator order column) rs).
    by eapply list_elem_of_lookup_2. }
  pose proof (Hin _ _ Hi) as H1. pose proof (Hin _ _ Hj) as H2.
  assert (Hsorted : StronglySorted (before (comparator order column))
                      (stable_sort (comparator order column) rs)).
  { apply (stable_sort_sorted _ P); [| |exact Hok];
      unfold before, comparator, P; destruct (bool_decide _).
    - intros a b c Ha Hb Hc. rewrite !compare_before by auto.
      intros Hba Hcb. destruct (less_than (get c column) (get a column)) eqn:Hca;
        [|done]. destruct (Hneg _ (get b column) _ Hc Hb Ha Hca); congruence.
    - intros a b c Ha Hb Hc. rewrite !compare_before by auto.
      intros Hab Hbc. destruct (less_than (get a column) (get c column)) eqn:Hac;
        [|done]. destruct (Hneg _ (get b column) _ Ha Hb Hc Hac); congruence.
    - intros a b Ha Hb. rewrite !compare_before by auto.
      destruct (less_than (get b column) (get a column)) eqn:Hba; [|by left].
      right. by apply Hasym.
    - intros a b Ha Hb. rewrite !compare_before by auto.
      destruct (less_than (get a column) (get b column)) eqn:Hab; [|by left].
      right. by apply Hasym. }
  pose proof (Hasym _ _ H1 H2 Hlt) as Hgt.
  unfold before, comparator in Hsorted, Hi, Hj.
  destruct (bool_decide (order = Some (js "asc"))).
  - destruct (Nat.lt_trichotomy i j) as [Hij|[Hij|Hij]]; [done| |].
    + subst j. rewrite Hi in Hj. injection Hj as ->. congruence.
    + pose proof (StronglySorted_lookup_lt _ _ _ _ _ _ Hsorted Hij Hj Hi) as Hb.
      simpl in Hb. rewrite compare_before in Hb by auto. congruence.
  - destruct (Nat.lt_trichotomy i j) as [Hij|[Hij|Hij]]; [| |done].
    + pose proof (StronglySorted_lookup_lt _ _ _ _ _ _ Hsorted Hij Hi Hj) as Hb.
      simpl in Hb. rewrite compare_before in Hb by auto. congruence.
    + subst j. rewrite Hi in Hj. injection Hj as ->. congruence.
Qed.

End RowOrder.

(** ** Rendering *)

Section Rendering.
Context `{Host}.

Lemma bind_run {S A B} (m : ST S A) (k : A -> ST S B) (s s' : S) (a : A) :
  m s = (Return a, s') -> (m ≫= k) s = k a s'.
Proof. intros Hm. unfold mbind, ST_bind. by rewrite Hm. Qed.

Lemma update_this_run (f : DataTable -> DataTable) (w : World) :
  update_this f w = (Return tt, with_this (f (this w)) w).
Proof. reflexivity. Qed.

Lemma keeps_rows_bind {A B} (m : ST World A) (k : A -> ST World B) :
  keeps_rows m -> (forall a, keeps_rows (k a)) -> keeps_rows (m ≫= k).
Proof.
  intros Hm Hk w. unfold mbind, ST_bind. specialize (Hm w).
  destruct (m w) as [[a|e] w1]; simpl in *; [|done].
  destruct (Hk a w1) as [-> ->]. done.
Qed.

Lemma keeps_rows_ret {A} (a : A) : keeps_rows (mret a).
Proof. done. Qed.

Lemma keeps_rows_throw {A} (e : exn) : keeps_rows (throw e : ST World A).
Proof. done. Qed.

Lemma keeps_rows_lift {A} (c : completion A) : keeps_rows (lift_completion c).
Proof. done. Qed.

Lemma keeps_rows_get_this : keeps_rows get_this.
Proof. done. Qed.

Lemma keeps_rows_deref (l : loc) : keeps_rows (deref l).
Proof. intros w. unfold deref. by destruct (arrays w !! l). Qed.

Lemma keeps_rows_with_locales {A} (m : ST locales A) :
  keeps_rows (with_locales m).
Proof. intros w. unfold with_locales. by destruct (m (cachedLocales w)). Qed.

Lemma keeps_rows_update (f : DataTable -> DataTable) :
  (forall t, rows (f t) = rows t) -> keeps_rows (update_this f).
Proof. intros Hf w. split; [done|]. apply Hf. Qed.

Lemma keeps_rows_add_sort_class (o : sortState) (cols : list jsstring) :
  keeps_rows (add_sort_class o cols).
Proof.
  unfold add_sort_class. destruct (own_property _ o); [|done].
  destruct (indexOf _ _); [|done]. destruct (valid_token _); [|done].
  by apply keeps_rows_update.
Qed.

Ltac keeps_rows_steps :=
  cbv zeta;
  lazymatch goal with
  | |- keeps_rows (update_this _) => by apply keeps_rows_update
  | |- keeps_rows (with_locales _) => apply keeps_rows_with_locales
  | |- keeps_rows (lift_completion _) => apply keeps_rows_lift
  | |- keeps_rows (deref _) => apply keeps_rows_deref
  | |- keeps_rows (add_sort_class _ _) => apply keeps_rows_add_sort_class
  | |- keeps_rows (mret _) => apply keeps_rows_ret
  | |- keeps_rows (throw _) => apply keeps_rows_throw
  | |- keeps_rows (mbind _ _) =>
      apply keeps_rows_bind; [keeps_rows_steps|intros ?; keeps_rows_steps]
  | |- keeps_rows (match ?x with _ => _ end) =>
      destruct x; keeps_rows_steps
  end.

(** What [renderRows] does after the sort leaves the sorted array where
    it is. *)
Lemma renderRows_in_place (l : loc) (isSelectedFn : option (row -> bool))
    (w : World) (r : row) (rs : list row) :
  arrays w !! l = Some (r :: rs) ->
  arrays (snd (renderRows l isSelectedFn w))
  = match sortOptions (this w) with
    | Some _ => <[l := sorted_rows (this w) (r :: rs)]> (arrays w)
    | None => arrays w
    end
  /\ rows (this (snd (renderRows l isSelectedFn w))) = Some l.
Proof.
  intros Harr. unfold renderRows.
  rewrite (bind_run _ _ _ _ _ (update_this_run _ w)).
  rewrite (bind_run (deref l) _ _ (with_this (set_rows l (this w)) w) (r :: rs))
    by (unfold deref; simpl; by rewrite Harr).
  rewrite (bind_run get_this _ _ _ _ eq_refl).
  unfold sorted_rows.
  change (sortOptions (this (with_this (set_rows l (this w)) w)))
    with (sortOptions (this w)).
  destruct (sortOptions (this w)) as [o|];
    erewrite bind_run by reflexivity; cbv beta;
    match goal with
    | |- arrays (snd (?m ?w0)) = _ /\ _ =>
        assert (Hk : keeps_rows m);
        [|destruct (Hk w0) as [-> ->]; done]
    end.
  - keeps_rows_steps.
  - keeps_rows_steps.
Qed.

(** *** A render that completes *)

Lemma returns_bind {S A B} (m : ST S A) (k : A -> ST S B) (s : S)
    (Q : B -> S -> Prop) :
  returns m s (fun a s' => returns (k a) s' Q) -> returns (m ≫= k) s Q.
Proof.
  intros (a & s' & Hm & b & s'' & Hk & HQ). exists b, s''.
  split; [|done]. by rewrite (bind_run _ _ _ _ _ Hm).
Qed.

Lemma returns_ret {S A} (a : A) (s : S) (Q : A -> S -> Prop) :
  Q a s -> returns (mret a) s Q.
Proof. intros HQ. by exists a, s. Qed.

Lemma returns_update (f : DataTable -> DataTable) (w : World)
    (Q : unit -> World -> Prop) :
  Q tt (with_this (f (this w)) w) -> returns (update_this f) w Q.
Proof. intros HQ. by eexists _, _. Qed.

Lemma returns_get_this (w : World) (Q : DataTable -> World -> Prop) :
  Q (this w) w -> returns get_this w Q.
Proof. intros HQ. by eexists _, _. Qed.

Lemma returns_deref (l : loc) (w : World) (rs : list row)
    (Q : list row -> World -> Prop) :
  arrays w !! l = Some rs -> Q rs w -> returns (deref l) w Q.
Proof. intros Hl HQ. exists rs, w. unfold deref. by rewrite Hl. Qed.

Lemma returns_store (l : loc) (rs : list row) (w : World)
    (Q : unit -> World -> Prop) :
  Q tt (with_array l rs w) -> returns (store l rs) w Q.
Proof. intros HQ. by eexists _, _. Qed.

Lemma returns_with_locales {A} (m : ST locales A) (w : World)
    (Q : A -> World -> Prop) :
  returns m (cachedLocales w) (fun a c => Q a (with_cache c w)) ->
  returns (with_locales m) w Q.
Proof.
  intros (a & c & Hm & HQ). exists a, (with_cache c w).
  unfold with_locales. by rewrite Hm.
Qed.


(** A loop whose every turn returns returns, turn by turn. *)
Lemma forM_returns {S A B} (f : A -> ST S B) (l : list A) (s : S) :
  (forall x s, x ∈ l -> returns (f x) s (fun _ _ => True)) ->
  returns (forM f l) s
    (fun ys _ => Forall2 (fun x y => exists s1 s2, f x s1 = (Return y, s2)) l ys).
Proof.
  revert s. induction l as [|x l IH]; intros s Hf.
  { apply returns_ret. constructor. }
  cbn [forM]. destruct (Hf x s) as (y & s1 & Hx & _); [by left|].
  destruct (IH s1) as (ys & s2 & Hl & Hys).
  { intros z s' Hz. apply Hf. by right. }
  exists (y :: ys), s2. split.
  - rewrite (bind_run _ _ _ _ _ Hx), (bind_run _ _ _ _ _ Hl). reflexivity.
  - constructor; eauto.
Qed.

Lemma format_returns (t : DataTable) (cols : list jsstring) (col : jsstring)
    (r : row) (cache : locales) :
  formatters_total t cols -> col ∈ cols ->
  returns (format t col r) cache (fun _ _ => True).
Proof.
  intros Ht Hcol. unfold format. destruct (formatter_for t col) as [f|] eqn:Hf.
  - destruct (Ht col f Hcol Hf (get r (Some col)) r cache) as (text & c & Hc).
    by exists text, c.
  - by apply returns_ret.
Qed.

Lemma colStyle_returns (t : DataTable) (cols : list jsstring) (r : row)
    (c : jsstring) (cache : locales) :
  formatters_total t cols -> c ∈ cols ->
  returns (colStyle t r c) cache (fun _ _ => True).
Proof.
  intros Ht Hc. unfold colStyle. apply returns_bind.
  destruct (format_returns t cols c r cache Ht Hc) as (text & c' & Hf & _).
  exists text, c'. split; [done|]. by apply returns_ret.
Qed.









Lemma returns_mono {S A} (m : ST S A) (s : S) (Q1 Q2 : A -> S -> Prop) :
  returns m s Q1 -> (forall a s', Q1 a s' -> Q2 a s') -> returns m s Q2.
Proof. intros (a & s' & Hm & HQ) Himp. exists a, s'. auto. Qed.

Lemma sorted_rows_length (t : DataTable) (rs : list row) :
  length (sorted_rows t rs) = length rs.
Proof.
  unfold sorted_rows. destruct (sortOptions t); [|done].
  apply Array_sort_length.
Qed.


(** The caller's array after a render of a non-empty sequence. *)
Lemma renderRows_array (l : loc) (isSelectedFn : option (row -> bool))
    (w : World) (rs : list row) :
  arrays w !! l = Some rs -> rs <> [] ->
  arrays (snd (renderRows l isSelectedFn w)) !! l
  = Some (sorted_rows (this w) rs).
Proof.
  intros Harr Hne. destruct rs as [|r rs]; [done|].
  destruct (renderRows_in_place l isSelectedFn w r rs Harr) as [-> _].
  unfold sorted_rows. destruct (sortOptions (this w));
    [apply lookup_insert_eq|done].
Qed.

(** *** What a render that completes has written *)
















(** C8.  Rendering an empty sequence completes normally; the body is
    cleared and [this.rows] refers to the sequence; the header, the
    rendered columns, the sort state and everything outside the component
    stay as they were. *)
Theorem renderRows_empty (l : loc) (isSelectedFn : option (row -> bool))
    (w : World) :
  arrays w !! l = Some [] ->
  renderRows l isSelectedFn w
  = (Return tt, with_this (set_tbody [] (set_rows l (this w))) w)
  /\ tbody (this (snd (renderRows l isSelectedFn w))) = []
  /\ thead (this (snd (renderRows l isSelectedFn w))) = thead (this w)
  /\ renderedColumns (this (snd (renderRows l isSelectedFn w)))
     = renderedColumns (this w).
Proof.
  intros Harr.
  assert (Hrun : renderRows l isSelectedFn w
                 = (Return tt, with_this (set_tbody [] (set_rows l (this w))) w)).
  { unfold renderRows.
    rewrite (bind_run _ _ _ _ _ (update_this_run _ w)).
    rewrite (bind_run (deref l) _ _ (with_this (set_rows l (this w)) w) [])
      by (unfold deref; simpl; by rewrite Harr).
    reflexivity. }
  rewrite Hrun. done.
Qed.

(** C3, amended.  With a sort state set and a sort column whose raw
    values are all numbers other than NaN (null counts as 0), or all
    strings, rendering leaves in the caller's array, to which [this.rows]
    refers, a permutation of its rows in which a row with the lesser raw
    value stands before one with the greater when the order is "asc", and
    after it otherwise; no formatter has a part in it. *)
Theorem renderRows_sorted (l : loc) (isSelectedFn : option (row -> bool))
    (w : World) (rs : list row) (o : sortState) :
  arrays w !! l = Some rs ->
  rs <> [] ->
  sortOptions (this w) = Some o ->
  Forall (fun r => numeric (get r (own_property (js "column") o)) = true) rs
  \/ Forall (fun r => is_string (get r (own_property (js "column") o)) = true) rs ->
  exists rs',
    arrays (snd (renderRows l isSelectedFn w)) !! l = Some rs'
    /\ rows (this (snd (renderRows l isSelectedFn w))) = Some l
    /\ rs' ≡ₚ rs
    /\ forall i j r1 r2,
         rs' !! i = Some r1 -> rs' !! j = Some r2 ->
         less_than (get r1 (own_property (js "column") o))
           (get r2 (own_property (js "column") o)) = true ->
         if bool_decide (own_property (js "order") o = Some (js "asc"))
         then (i < j)%nat else (j < i)%nat.
Proof.
  intros Harr Hne Hso Hcol. destruct rs as [|r rs]; [done|].
  destruct (renderRows_in_place l isSelectedFn w r rs Harr) as [Ha Hr].
  rewrite Hso in Ha. unfold sorted_rows in Ha. rewrite Hso in Ha.
  eexists. split; [rewrite Ha; apply lookup_insert_eq|].
  split; [exact Hr|]. split; [apply Array_sort_perm|].
  intros i j r1 r2 Hi Hj Hlt.
  destruct Hcol as [Hcol|Hcol].
  - by eapply (Array_sort_comparator numeric); [apply comparable_numeric|..].
  - by eapply (Array_sort_comparator is_string); [apply comparable_string|..].
Qed.

End Rendering.

(** C5, as stated, at [truncate(null, 5)]: reading [length] of null throws. *)
Lemma truncate_null_throws :
  @truncate sample_host VNull 5 = Throw TypeError
  /\ ~ (exists s, @truncate sample_host VNull 5 = Return s).
Proof. split; [reflexivity|]. intros [s Hs]. discriminate Hs. Qed.

Lemma renderRows_empty_witness :
  @renderRows sample_host 0%nat None (page_with (sample_options None None) [])
  = (Return tt,
     with_this
       (set_tbody [] (set_rows 0%nat
                        (this (page_with (sample_options None None) []))))
       (page_with (sample_options None None) []))
  /\ tbody (this (snd (@renderRows sample_host 0%nat None
                         (page_with (sample_options None None) [])))) = []
  /\ thead (this (snd (@renderRows sample_host 0%nat None
                         (page_with (sample_options None None) []))))
     = thead (this (page_with (sample_options None None) []))
  /\ renderedColumns (this (snd (@renderRows sample_host 0%nat None
                                   (page_with (sample_options None None) []))))
     = renderedColumns (this (page_with (sample_options None None) [])).
Proof.
  apply (@renderRows_empty sample_host 0%nat None
           (page_with (sample_options None None) [])).
  reflexivity.
Defined.

(** C3, as stated, at a sequence with two rows that lack the sort column
    between a row with 1 and a row with 0: the comparator answers 0 for
    every pair with a missing value, no neighbour asks for a swap, and the
    row with 0 stays behind the row with 1. *)
Lemma renderRows_missing_value :
  arrays (snd (@renderRows sample_host 0%nat None
                 (page_with (sample_options by_c_ascending None)
                    [ [(js "c", VNum 1)]; []; []; [(js "c", VNum 0)] ])))
    !! 0%nat
  = Some [ [(js "c", VNum 1)]; []; []; [(js "c", VNum 0)] ]
  /\ @less_than sample_host (get [(js "c", VNum 0)] (Some (js "c")))
       (get [(js "c", VNum 1)] (Some (js "c"))) = true.
Proof. split; vm_compute; reflexivity. Qed.

Lemma renderRows_sorted_witness :
  exists rs',
    arrays (snd (@renderRows sample_host 0%nat None
                   (page_with (sample_options by_c_ascending None)
                      [ [(js "c", VNum 2)]; [(js "c", VNum 1)] ]))) !! 0%nat
    = Some rs'
    /\ rows (this (snd (@renderRows sample_host 0%nat None
                          (page_with (sample_options by_c_ascending None)
                             [ [(js "c", VNum 2)]; [(js "c", VNum 1)] ]))))
       = Some 0%nat
    /\ rs' ≡ₚ [ [(js "c", VNum 2)]; [(js "c", VNum 1)] ]
    /\ forall i j r1 r2,
         rs' !! i = Some r1 -> rs' !! j = Some r2 ->
         @less_than sample_host (get r1 (Some (js "c")))
           (get r2 (Some (js "c"))) = true ->
         (i < j)%nat.
Proof.
  apply (@renderRows_sorted sample_host 0%nat None
           (page_with (sample_options by_c_ascending None)
              [ [(js "c", VNum 2)]; [(js "c", VNum 1)] ])
           [ [(js "c", VNum 2)]; [(js "c", VNum 1)] ]
           [(js "column", js "c"); (js "order", js "asc")]).
  - reflexivity.
  - discriminate.
  - reflexivity.
  - left. repeat constructor.
Defined.





(** ** The locale cache *)

Section LocaleCache.
Context `{Host}.

Lemma cache_wf_empty : cache_wf ∅.
Proof. intros p l Hl. by rewrite lookup_empty in Hl. Qed.

Lemma cache_wf_insert (cache : locales) (p : option nat) (l : locale) :
  cache_wf cache -> createLocale p = Return l -> cache_wf (<[p := l]> cache).
Proof.
  intros Hwf Hl q l' Hq. destruct (decide (p = q)) as [<-|Hne].
  - rewrite lookup_insert_eq in Hq. by injection Hq as <-.
  - rewrite lookup_insert_ne in Hq by done. by apply Hwf.
Qed.

Lemma cachedLocale_run (p : option nat) (g : locale -> jsstring)
    (cache : locales) :
  (l ← cachedLocale p; mret (g l)) cache
  = match cache !! p with
    | Some l => (Return (g l), cache)
    | None =>
        match createLocale p with
        | Return l => (Return (g l), <[p := l]> cache)
        | Throw e => (Throw e, cache)
        end
    end.
Proof.
  unfold cachedLocale. st_unfold.
  destruct (cache !! p); [reflexivity|]. by destruct (createLocale p).
Qed.

Lemma cache_friendly_locale (p : option nat) (g : locale -> jsstring) :
  cache_friendly (l ← cachedLocale p; mret (g l)).
Proof.
  intros cache. rewrite !cachedLocale_run, lookup_empty.
  destruct (cache !! p) as [l|] eqn:Hp; simpl.
  - rewrite Hp. split; [done|]. split; [done|].
    intros Hwf. by rewrite (Hwf p l Hp).
  - destruct (createLocale p) as [l|e] eqn:Hl; simpl.
    + rewrite lookup_insert_eq. split; [by apply insert_subseteq|].
      split; [done|]. intros Hwf. split; [done|]. by apply cache_wf_insert.
    + rewrite Hp. done.
Qed.

Lemma cache_friendly_ret (s : jsstring) : cache_friendly (mret s).
Proof. intros cache. repeat split; done. Qed.

Lemma cache_friendly_throw (e : exn) : cache_friendly (throw e).
Proof. intros cache. repeat split; done. Qed.

Lemma cache_friendly_map (m : ST locales jsstring) (f : jsstring -> jsstring) :
  cache_friendly m -> cache_friendly (s ← m; mret (f s)).
Proof.
  intros Hm cache. destruct (Hm cache) as (Hsub & Hidem & Hwf).
  unfold mbind, ST_bind, mret, ST_ret.
  destruct (m cache) as [[s|e] c] eqn:Hmc; simpl in *; rewrite Hidem;
    (split; [done|]); (split; [done|]); intros Hc;
    destruct (Hwf Hc) as [Hfst Hwf']; (split; [|done]);
    destruct (m ∅) as [[s0|e0] c0]; simpl in *; congruence.
Qed.

Lemma builtins_cache_friendly (v : value) (precision : option nat) :
  Forall (fun fmt : value -> ST locales jsstring => cache_friendly (fmt v))
    (builtins precision).
Proof.
  unfold builtins.
  repeat first [apply Forall_nil_2 | apply Forall_cons_2];
    unfold formatDollars, formatCPM, formatPercent0, formatPercent1,
      formatFixed0, formatFixed1, formatFixed2, formatCurrency, formatPercent,
      formatFixed, formatThousands, formatCalibration; cbv zeta;
    repeat match goal with
    | |- cache_friendly (if ?b then _ else _) => destruct b
    | |- cache_friendly (match ?x with _ => _ end) => destruct x
    | |- cache_friendly (mret _) => apply cache_friendly_ret
    | |- cache_friendly (throw _) => apply cache_friendly_throw
    | |- cache_friendly (mbind _ (cachedLocale _)) =>
        apply cache_friendly_locale
    | |- cache_friendly (mbind _ _) => apply cache_friendly_map
    | |- cache_friendly (formatFixed _ _) => unfold formatFixed
    end.
Qed.

Lemma cachedLocale_stores (p : option nat) (g : locale -> jsstring)
    (cache cache' : locales) (text : jsstring) :
  (l ← cachedLocale p; mret (g l)) cache = (Return text, cache') ->
  exists l,
    cache' !! p = Some l
    /\ match cache !! p with
       | Some l0 => l = l0 /\ cache' = cache
       | None => createLocale p = Return l /\ cache' = <[p := l]> cache
       end.
Proof.
  rewrite cachedLocale_run. destruct (cache !! p) as [l0|] eqn:Hp.
  - intros [= _ <-]. exists l0. by rewrite Hp.
  - destruct (createLocale p) as [l|e]; [|done]. intros [= _ <-].
    exists l. by rewrite lookup_insert_eq.
Qed.

Lemma cachedLocale_found (p : option nat) (g : locale -> jsstring)
    (cache : locales) :
  is_Some (cache !! p) ->
  snd ((l ← cachedLocale p; mret (g l)) cache) = cache.
Proof. intros [l Hl]. by rewrite cachedLocale_run, Hl. Qed.

(** X1.  A formatter never removes or replaces an entry of the locale
    cache, and run again on the cache it left it gives the same result
    and leaves that cache as it is.  The three formatters that take a
    precision create the locale for it once: a call that formats a valid
    number leaves in the cache, at the precision it used (the one given,
    or 2 where [formatCurrency] and [formatPercent] are given none), a
    locale: the one that was there, and the cache as it was, or else the
    one [createLocale] makes, stored at that precision and nowhere else;
    and from then on no call with that precision, on any value, writes
    the cache. *)
Theorem formatters_fill_cache (v : value) (precision : option nat)
    (cache : locales) :
  Forall (fun fmt : value -> ST locales jsstring =>
            cache ⊆ snd (fmt v cache)
            /\ fmt v (snd (fmt v cache)) = fmt v cache)
    (builtins precision)
  /\ Forall (fun fk : (value -> option nat -> ST locales jsstring)
                      * option nat =>
               forall text cache',
                 isValidNumber v = true ->
                 fk.1 v precision cache = (Return text, cache') ->
                 (exists l,
                    cache' !! fk.2 = Some l
                    /\ match cache !! fk.2 with
                       | Some l0 => l = l0 /\ cache' = cache
                       | None => createLocale fk.2 = Return l
                                 /\ cache' = <[fk.2 := l]> cache
                       end)
                 /\ forall v', snd (fk.1 v' precision cache') = cache')
       [ (formatCurrency, match precision with None => Some 2%nat | p => p end);
         (formatPercent, match precision with None => Some 2%nat | p => p end);
         (formatFixed, precision) ].
Proof.
  split.
  { eapply Forall_impl; [apply builtins_cache_friendly|].
    intros fmt Hfmt. destruct (Hfmt cache) as (Hsub & Hidem & _). done. }
  repeat first [apply Forall_nil_2 | apply Forall_cons_2];
    cbn [fst snd]; intros text cache' Hv;
    unfold formatCurrency, formatPercent, formatFixed; cbv zeta;
    rewrite Hv; cbv beta iota delta [negb]; intros Hrun;
    destruct (cachedLocale_stores _ _ _ _ _ Hrun) as (l & Hl & Hcache);
    (split; [by exists l|]); intros v';
    destruct (isValidNumber v'); cbv beta iota delta [negb]; try reflexivity;
    apply cachedLocale_found; by exists l.
Qed.

(** X2.  The cache cannot be observed: on a cache that holds what the
    formatters put there, every formatter completes as it does on the
    empty cache, with the same string or the same error, and leaves a
    cache of the same kind. *)
Theorem formatters_cache_transparent (v : value) (precision : option nat)
    (cache : locales) :
  cache_wf cache ->
  Forall (fun fmt : value -> ST locales jsstring =>
            fst (fmt v cache) = fst (fmt v ∅)
            /\ cache_wf (snd (fmt v cache)))
    (builtins precision).
Proof.
  intros Hwf. eapply Forall_impl; [apply builtins_cache_friendly|].
  intros fmt Hfmt. destruct (Hfmt cache) as (_ & _ & Hc). by apply Hc.
Qed.

(** X3.  A precision above the 100 fraction digits [Intl.NumberFormat]
    takes: the three formatters with a precision throw a [RangeError] on
    every valid number, on every call, the cache never holding a locale
    for it; a value that is no valid number still gets the placeholder. *)
Theorem precision_out_of_range (v : value) (p : nat) (cache : locales) :
  (fractionDigitsLimit < p)%nat ->
  cache_wf cache ->
  Forall (fun fmt : value -> option nat -> ST locales jsstring =>
            fmt v (Some p) cache
            = if isValidNumber v then (Throw RangeError, cache)
              else (Return (js "-"), cache))
    [formatCurrency; formatPercent; formatFixed].
Proof.
  intros Hp Hwf.
  assert (Hnew : createLocale (Some p) = Throw RangeError).
  { unfold createLocale. by destruct (Nat.ltb_spec fractionDigitsLimit p); [|lia]. }
  assert (Hnone : cache !! Some p = None).
  { destruct (cache !! Some p) as [l|] eqn:Hl; [|done].
    apply Hwf in Hl. congruence. }
  repeat first [apply Forall_nil_2 | apply Forall_cons_2];
    unfold formatCurrency, formatPercent, formatFixed;
    cbv zeta; destruct (isValidNumber v); cbv beta iota delta [negb];
    try reflexivity; by rewrite cachedLocale_run, Hnone, Hnew.
Qed.

End LocaleCache.

(** ** String inputs *)

Section StringInputs.
Context `{Host}.

(** X4.  [truncate] on a string with a letter that no numeric literal
    has (the start index is then 0): a string of at most [n] code units
    comes back as it is, a longer one as its first [n - 1] code units and
    the ellipsis, so the result has at most [n] code units, or the one of
    the ellipsis when [n] is less than 1. *)
Theorem truncate_text (str : jsstring) (n : Z) :
  existsb never_numeric str = true ->
  truncate (VStr str) n
  = Return (if (Z.of_nat (length str) <=? n)%Z then str
            else take (Z.to_nat (n - 1)) str ++ [ELLIPSIS])
  /\ forall s, truncate (VStr str) n = Return s ->
       (Z.of_nat (length s) <= Z.max n 1)%Z.
Proof.
  intros Hletter.
  assert (Hrun : truncate (VStr str) n
                 = Return (if (Z.of_nat (length str) <=? n)%Z then str
                           else take (Z.to_nat (n - 1)) str ++ [ELLIPSIS])).
  { unfold truncate. destruct (Z.leb_spec (Z.of_nat (length str)) n);
      [reflexivity|].
    unfold substring. simpl ToNumber.
    rewrite (never_numeric_start str Hletter). simpl clamp.
    replace (Z.to_nat (Z.min (Z.max (n - 1) 0) (Z.of_nat (length str))))
      with (Z.to_nat (n - 1)) by lia.
    by rewrite Nat.min_0_l, Nat.max_0_l, Nat.sub_0_r. }
  split; [exact Hrun|]. intros s. rewrite Hrun. intros [= <-].
  destruct (Z.leb_spec (Z.of_nat (length str)) n); [lia|].
  rewrite length_app, length_take. simpl. lia.
Qed.

(** X5.  [formatCalibration] takes numbers only: on a string that counts
    as a valid number (the empty string, a string of digits) it throws a
    [TypeError], strings having no [toFixed], where [formatFixed2]
    formats the same string. *)
Theorem formatCalibration_string (s : jsstring) (cache : locales) :
  isValidNumber (VStr s) = true ->
  formatCalibration (VStr s) cache = (Throw TypeError, cache)
  /\ exists text cache', formatFixed2 (VStr s) cache = (Return text, cache').
Proof.
  intros Hvalid. split.
  - unfold formatCalibration. by rewrite Hvalid.
  - apply formatFixed_returns. unfold fractionDigitsLimit. lia.
Qed.

End StringInputs.

(** ** The alignment test *)

Section Alignment.

Lemma drop_while_split {A} (p : A -> bool) (l : list A) :
  exists pre, l = pre ++ drop_while p l /\ forallb p pre = true.
Proof.
  induction l as [|x l (pre & Hl & Hpre)]; [by exists []|]. simpl.
  destruct (p x) eqn:Hx; [|by exists []].
  exists (x :: pre). simpl. rewrite Hx, Hpre. split; [by f_equal|done].
Qed.

Lemma drop_while_all {A} (p : A -> bool) (l1 l2 : list A) :
  forallb p l1 = true -> drop_while p (l1 ++ l2) = drop_while p l2.
Proof.
  induction l1 as [|x l1 IH]; simpl; [done|].
  intros [Hx Hl]%andb_prop. rewrite Hx. by apply IH.
Qed.

Lemma drop_while_stops {A} (p : A -> bool) (l : list A) :
  (forall x, head l = Some x -> p x = false) -> drop_while p l = l.
Proof.
  destruct l as [|x l]; simpl; [done|]. intros Hp. by rewrite (Hp x).
Qed.

Lemma body_char_no_dollar (c : N) : body_char c = true -> (36 =? c)%N = false.
Proof.
  intros Hc. destruct (N.eqb_spec 36 c) as [<-|]; [|done]. discriminate Hc.
Qed.

Lemma unit_char_no_body (c : N) : unit_char c = true -> body_char c = false.
Proof.
  unfold unit_char. simpl existsb. intros Hc.
  repeat (apply orb_prop in Hc as [Hc|Hc];
          [apply N.eqb_eq in Hc; subst c; reflexivity|]).
  discriminate Hc.
Qed.

(** X6.  The test that aligns a column as a number accepts exactly the
    texts made of any number of dollar signs, then at least one digit,
    comma, point or minus, then any number of the unit letters: nothing
    else, and not the empty text. *)
Theorem isNumeric_shape (text : jsstring) :
  isNumeric text = true
  <-> exists dollars body units,
        text = dollars ++ body ++ units
        /\ Forall (fun c => c = 36%N) dollars
        /\ body <> []
        /\ forallb body_char body = true
        /\ forallb unit_char units = true.
Proof.
  unfold isNumeric. fold body_char. fold unit_char. split.
  - intros [Hlen Hunits]%andb_prop. apply Nat.ltb_lt in Hlen.
    destruct (drop_while_split (N.eqb 36) text) as (dollars & Htext & Hd).
    destruct (drop_while_split body_char (drop_while (N.eqb 36) text))
      as (body & Hrest & Hb).
    exists dollars, body, (drop_while body_char (drop_while (N.eqb 36) text)).
    split; [by rewrite <- Hrest|]. split.
    { apply Forall_forall. intros c Hc. rewrite forallb_forall in Hd.
      symmetry. apply N.eqb_eq, Hd. by apply list_elem_of_In. }
    split; [|done]. intros ->. simpl in Hrest. rewrite <- Hrest in Hlen. lia.
  - intros (dollars & body & units & -> & Hd & Hne & Hb & Hu).
    rewrite (drop_while_all (N.eqb 36) dollars).
    2:{ apply forallb_forall. intros c Hc. rewrite Forall_forall in Hd.
        apply N.eqb_eq. symmetry. apply Hd. by apply list_elem_of_In. }
    rewrite (drop_while_stops (N.eqb 36) (body ++ units)).
    2:{ destruct body as [|c body]; [done|]. simpl. intros x [= <-].
        apply body_char_no_dollar. by apply andb_prop in Hb as [-> _]. }
    rewrite (drop_while_all body_char body _ Hb).
    rewrite (drop_while_stops body_char units).
    2:{ destruct units as [|c units]; [done|]. simpl. intros x [= <-].
        apply unit_char_no_body. by apply andb_prop in Hu as [-> _]. }
    rewrite Hu, andb_true_r. apply Nat.ltb_lt. rewrite length_app.
    destruct body; [done|]. simpl. lia.
Qed.

End Alignment.

(** ** What a method leaves alone *)

Section Frames.
Context `{Host}.

Lemma preserves_bind {A B X} (f : World -> X) (m : ST World A)
    (k : A -> ST World B) :
  preserves f m -> (forall a, preserves f (k a)) -> preserves f (m ≫= k).
Proof.
  intros Hm Hk w. unfold mbind, ST_bind. specialize (Hm w).
  destruct (m w) as [[a|e] w1]; simpl in *; [|done].
  by rewrite (Hk a w1).
Qed.

Lemma preserves_ret {A X} (f : World -> X) (a : A) : preserves f (mret a).
Proof. done. Qed.

Lemma preserves_throw {A X} (f : World -> X) (e : exn) :
  preserves f (throw e : ST World A).
Proof. done. Qed.

Lemma preserves_lift {A X} (f : World -> X) (c : completion A) :
  preserves f (lift_completion c).
Proof. done. Qed.

Lemma preserves_get_this {X} (f : World -> X) : preserves f get_this.
Proof. done. Qed.

Lemma preserves_deref {X} (f : World -> X) (l : loc) : preserves f (deref l).
Proof. intros w. unfold deref. by destruct (arrays w !! l). Qed.

Lemma preserves_update {X} (f : World -> X) (g : DataTable -> DataTable) :
  (forall w, f (with_this (g (this w)) w) = f w) -> preserves f (update_this g).
Proof. intros Hg w. apply Hg. Qed.

Lemma preserves_store {X} (f : World -> X) (l : loc) (rs : list row) :
  (forall w, f (with_array l rs w) = f w) -> preserves f (store l rs).
Proof. intros Hf w. apply Hf. Qed.

Lemma preserves_dispatch {X} (f : World -> X) (e : notification) :
  (forall w, f (with_event e w) = f w) -> preserves f (dispatchEvent e).
Proof. intros Hf w. apply Hf. Qed.

Lemma preserves_with_locales {A X} (f : World -> X) (m : ST locales A) :
  (forall c w, f (with_cache c w) = f w) -> preserves f (with_locales m).
Proof.
  intros Hf w. unfold with_locales. destruct (m (cachedLocales w)). apply Hf.
Qed.

Lemma preserves_setSortOptions {X} (f : World -> X) (next : option sortState) :
  (forall w, f (with_this (set_sortOptions next (this w)) w) = f w) ->
  preserves f (setSortOptions next).
Proof. intros Hf w. rewrite setSortOptions_run. apply Hf. Qed.

Lemma preserves_add_sort_class {X} (f : World -> X) (o : sortState)
    (cols : list jsstring) :
  (forall h w, f (with_this (set_thead h (this w)) w) = f w) ->
  preserves f (add_sort_class o cols).
Proof.
  intros Hf. unfold add_sort_class. destruct (own_property _ o); [|done].
  destruct (indexOf _ _); [|done]. destruct (valid_token _); [|done].
  apply preserves_update. intros w. apply Hf.
Qed.

Ltac preserves_steps :=
  cbv zeta;
  lazymatch goal with
  | |- preserves _ (update_this _) =>
      apply preserves_update; intros; reflexivity
  | |- preserves _ (with_locales _) =>
      apply preserves_with_locales; intros; reflexivity
  | |- preserves _ (store _ _) => apply preserves_store; intros; reflexivity
  | |- preserves _ (dispatchEvent _) =>
      apply preserves_dispatch; intros; reflexivity
  | |- preserves _ (setSortOptions _) =>
      apply preserves_setSortOptions; intros; reflexivity
  | |- preserves _ (add_sort_class _ _) =>
      apply preserves_add_sort_class; intros; reflexivity
  | |- preserves _ (lift_completion _) => apply preserves_lift
  | |- preserves _ (deref _) => apply preserves_deref
  | |- preserves _ get_this => apply preserves_get_this
  | |- preserves _ (mret _) => apply preserves_ret
  | |- preserves _ (throw _) => apply preserves_throw
  | |- preserves _ (mbind _ _) =>
      apply preserves_bind; [preserves_steps|intros ?; preserves_steps]
  | |- preserves _ (match ?x with _ => _ end) =>
      destruct x; preserves_steps
  end.

Lemma onClick_outside_sort (event : click) :
  preserves outside_sort (onClick event).
Proof. unfold onClick. destruct event; preserves_steps. Qed.

Lemma renderRows_read_by_render (l : loc) (isSelectedFn : option (row -> bool)) :
  preserves read_by_render (renderRows l isSelectedFn).
Proof. unfold renderRows. preserves_steps. Qed.

(** The rendered columns are those of the sorted rows as soon as the
    array is not empty, whether the render completes or not. *)
Lemma renderRows_renderedColumns (l : loc) (isSelectedFn : option (row -> bool))
    (w : World) (r : row) (rs : list row) :
  arrays w !! l = Some (r :: rs) ->
  renderedColumns (this (snd (renderRows l isSelectedFn w)))
  = Some (rendered_columns (this w) (sorted_rows (this w) (r :: rs))).
Proof.
  intros Harr.
  pose proof (sorted_rows_length (this w) (r :: rs)) as Hlen.
  unfold renderRows.
  rewrite (bind_run _ _ _ _ _ (update_this_run _ w)).
  rewrite (bind_run (deref l) _ _ (with_this (set_rows l (this w)) w) (r :: rs))
    by (unfold deref; simpl; by rewrite Harr).
  rewrite (bind_run get_this _ _ _ _ eq_refl).
  unfold sorted_rows, rendered_columns in *.
  change (sortOptions (this (with_this (set_rows l (this w)) w)))
    with (sortOptions (this w)).
  change (columns (this (with_this (set_rows l (this w)) w)))
    with (columns (this w)).
  destruct (sortOptions (this w)) as [o|].
  - remember (Array_sort _ (r :: rs)) as sorted eqn:Hsorted.
    erewrite bind_run by reflexivity.
    erewrite (bind_run (deref l))
      by (unfold deref, store; simpl; by rewrite lookup_insert_eq).
    destruct sorted as [|row0 rest]; [done|].
    cbv zeta. erewrite bind_run by reflexivity.
    match goal with
    | |- renderedColumns (this (snd (?m ?w0))) = _ =>
        assert (Hk : preserves (fun w => renderedColumns (this w)) m)
          by preserves_steps;
        by rewrite (Hk w0)
    end.
  - erewrite bind_run by reflexivity.
    erewrite (bind_run (deref l))
      by (unfold deref; simpl; by rewrite Harr).
    cbv beta iota zeta. erewrite bind_run by reflexivity.
    match goal with
    | |- renderedColumns (this (snd (?m ?w0))) = _ =>
        assert (Hk : preserves (fun w => renderedColumns (this w)) m)
          by preserves_steps;
        by rewrite (Hk w0)
    end.
Qed.

(** A click, as a function of the world it finds. *)
Lemma onClick_run (event : click) (w : World) :
  onClick event w
  = match event with
    | TD cellIndex i shiftKey =>
        match renderedColumns (this w), rows (this w) with
        | Some cols, Some l =>
            match arrays w !! l with
            | Some rs =>
                match rs !! i with
                | Some r =>
                    (Return tt,
                     with_event
                       (cellClick (cols !! cellIndex) (get r (cols !! cellIndex))
                          (if shiftKey then js "toggle" else js "select")) w)
                | None => (Throw TypeError, w)
                end
            | None => (Throw TypeError, w)
            end
        | _, _ => (Throw TypeError, w)
        end
    | GraphButton => (Return tt, with_event graphButtonClick w)
    | TH cellIndex =>
        match renderedColumns (this w) with
        | None => (Throw TypeError, w)
        | Some cols =>
            let column := cols !! cellIndex in
            if same_column (sortOptions (this w)) column then
              match sortOptions (this w) with
              | None => (Throw TypeError, w)
              | Some o =>
                  let next :=
                    Some (new_sortOptions column
                            (if bool_decide (own_property (js "order") o
                                             = Some (js "asc"))
                             then js "desc" else js "asc")) in
                  (Return tt,
                   with_event (sortChange next)
                     (with_this (set_sortOptions next (this w)) w))
              end
            else
              let next := Some (new_sortOptions column (js "desc")) in
              (Return tt,
               with_event (sortChange next)
                 (with_this (set_sortOptions next (this w)) w))
        end
    | Elsewhere => (Return tt, w)
    end.
Proof.
  unfold onClick, get_this, deref, dispatchEvent. st_unfold.
  destruct event as [j i shift| |j|]; try reflexivity.
  - destruct (renderedColumns (this w)) as [cols|], (rows (this w)) as [l|];
      try reflexivity.
    destruct (arrays w !! l) as [rs|]; [|reflexivity].
    by destruct (rs !! i).
  - destruct (renderedColumns (this w)) as [cols|]; [|reflexivity]. cbv zeta.
    destruct (same_column _ _); [destruct (sortOptions (this w))|];
      rewrite ?setSortOptions_run; reflexivity.
Qed.

(** X7.  A click changes nothing of the component but its sort state:
    the header and the body on screen, the rows, the rendered columns,
    the options and the locale cache stay as they were (a header click
    does not render again), and the arrays of the page are not written.
    At most one event is dispatched; a click that throws has changed
    nothing at all; and only a header click can change the sort state. *)
Theorem onClick_touches (event : click) (w : World) :
  outside_sort (snd (onClick event w)) = outside_sort w
  /\ (exists es, dispatched (snd (onClick event w)) = dispatched w ++ es
                 /\ (length es <= 1)%nat)
  /\ (forall e, fst (onClick event w) = Throw e -> snd (onClick event w) = w)
  /\ match event with
     | TH _ => True
     | _ => sortOptions (this (snd (onClick event w))) = sortOptions (this w)
     end.
Proof.
  split; [apply onClick_outside_sort|]. rewrite onClick_run.
  assert (Hnone : exists es, dispatched w = dispatched w ++ es
                             /\ (length es <= 1)%nat).
  { exists []. rewrite app_nil_r. simpl. split; [done|lia]. }
  assert (Hone : forall e, exists es,
             dispatched w ++ [e] = dispatched w ++ es /\ (length es <= 1)%nat).
  { intros e. exists [e]. simpl. split; [done|lia]. }
  destruct event as [j i shift| |j|]; cbv zeta;
    repeat match goal with
    | |- context [match ?x with _ => _ end] => destruct x
    end; simpl; repeat split; try done; try apply Hone.
Qed.

End Frames.

(** ** The table a render writes *)

Section Markup.
Context `{Host}.

Lemma bind_throw {S A B} (m : ST S A) (k : A -> ST S B) (s s' : S) (e : exn) :
  m s = (Throw e, s') -> (m ≫= k) s = (Throw e, s').
Proof. intros Hm. unfold mbind, ST_bind. by rewrite Hm. Qed.

(** The arrays of the page after a render, whatever the render met. *)
Lemma renderRows_arrays (l : loc) (isSelectedFn : option (row -> bool))
    (w : World) :
  arrays (snd (renderRows l isSelectedFn w))
  = match arrays w !! l, sortOptions (this w) with
    | Some (r :: rs), Some _ =>
        <[l := sorted_rows (this w) (r :: rs)]> (arrays w)
    | _, _ => arrays w
    end.
Proof.
  destruct (arrays w !! l) as [[|r rs]|] eqn:Harr.
  - unfold renderRows.
    rewrite (bind_run _ _ _ _ _ (update_this_run _ w)).
    rewrite (bind_run (deref l) _ _ (with_this (set_rows l (this w)) w) [])
      by (unfold deref; simpl; by rewrite Harr).
    reflexivity.
  - destruct (renderRows_in_place l isSelectedFn w r rs Harr) as [-> _].
    by destruct (sortOptions (this w)).
  - unfold renderRows.
    rewrite (bind_run _ _ _ _ _ (update_this_run _ w)).
    rewrite (bind_throw (deref l) _ (with_this (set_rows l (this w)) w)
               (with_this (set_rows l (this w)) w) TypeError)
      by (unfold deref; simpl; by rewrite Harr).
    reflexivity.
Qed.

(** X8.  A render never loses, adds or copies a row: the caller's array
    holds the same rows afterwards, reordered when a sort state is set and
    as they were when none is; no other array of the page is written; and
    the selection predicate has no part in the order. *)
Theorem renderRows_keeps_every_row (l : loc)
    (isSelectedFn : option (row -> bool)) (w : World) :
  (forall l', l' <> l ->
     arrays (snd (renderRows l isSelectedFn w)) !! l' = arrays w !! l')
  /\ match arrays w !! l with
     | Some rs =>
         exists rs',
           arrays (snd (renderRows l isSelectedFn w)) !! l = Some rs'
           /\ rs' ≡ₚ rs
           /\ (sortOptions (this w) = None -> rs' = rs)
     | None => arrays (snd (renderRows l isSelectedFn w)) !! l = None
     end
  /\ forall isSelectedFn',
       arrays (snd (renderRows l isSelectedFn' w))
       = arrays (snd (renderRows l isSelectedFn w)).
Proof.
  split; [|split]; [| |intros sel'; by rewrite !renderRows_arrays];
    rewrite renderRows_arrays.
  - intros l' Hl'.
    destruct (arrays w !! l) as [[|r rs]|], (sortOptions (this w)); try done.
    by rewrite lookup_insert_ne.
  - destruct (arrays w !! l) as [[|r rs]|] eqn:Harr; [by exists []| |done].
    unfold sorted_rows.
    destruct (sortOptions (this w)) as [o|].
    + eexists. rewrite lookup_insert_eq. split; [done|].
      split; [apply Array_sort_perm|done].
    + by exists (r :: rs).
Qed.

(** X9.  A render reads the options and the sort state and writes none
    of them, and it dispatches no event, however it completes. *)
Theorem renderRows_reads_options (l : loc)
    (isSelectedFn : option (row -> bool)) (w : World) :
  read_by_render (snd (renderRows l isSelectedFn w)) = read_by_render w.
Proof. apply renderRows_read_by_render. Qed.






Lemma throws_bind_r {S A B} (m : ST S A) (k : A -> ST S B) (s : S) (e : exn)
    (Q : S -> Prop) :
  returns m s (fun a s' => throws (k a) s' e Q) -> throws (m ≫= k) s e Q.
Proof.
  intros (a & s' & Hm & s'' & Hk & HQ). exists s''.
  split; [|done]. by rewrite (bind_run _ _ _ _ _ Hm).
Qed.

Lemma throws_bind_l {S A B} (m : ST S A) (k : A -> ST S B) (s : S) (e : exn)
    (Q : S -> Prop) :
  throws m s e Q -> throws (m ≫= k) s e Q.
Proof.
  intros (s' & Hm & HQ). exists s'. split; [|done]. by apply bind_throw.
Qed.

Lemma formatColumnName_throws (col : jsstring) (e : exn) :
  formatColumnName col = Throw e -> e = TypeError.
Proof.
  unfold formatColumnName. cbv zeta. rewrite map_completion_capitalize.
  destruct (forallb nonempty _); [done|]. by intros [= <-].
Qed.

Lemma display_name_throws (t : DataTable) (col : jsstring) (e : exn) :
  display_name t col = Throw e -> e = TypeError.
Proof.
  unfold display_name. destruct (configured_name t col); [done|].
  apply formatColumnName_throws.
Qed.

Lemma header_cells_throw (t : DataTable) (cols : list jsstring)
    (styles : list (option jsstring)) :
  length cols = length styles ->
  forallb (header_ok t) cols = false ->
  map_completion (header_cell t) (zip cols styles) = Throw TypeError.
Proof.
  revert styles. induction cols as [|col cols IH]; intros [|style styles];
    simpl; try done.
  intros [= Hlen]. unfold header_ok at 1.
  destruct (display_name t col) as [name|e] eqn:Hname.
  - simpl. intros Hrest. by rewrite (IH styles Hlen Hrest).
  - intros _. by rewrite (display_name_throws _ _ _ Hname).
Qed.

(** X13.  A render whose formatters return on the columns it shows and
    that meets among these a column it cannot name (no name configured or
    inherited, and a key with an empty segment between dashes) throws a
    [TypeError] and leaves the header and the body on screen as they
    were; by then the caller's array is as the sort left it, and
    [this.rows] and the rendered columns are those of the new rows. *)
Theorem renderRows_unnamed_column (l : loc)
    (isSelectedFn : option (row -> bool)) (w : World) (rs : list row) :
  arrays w !! l = Some rs ->
  rs <> [] ->
  formatters_total (this w)
    (rendered_columns (this w) (sorted_rows (this w) rs)) ->
  forallb (header_ok (this w))
    (rendered_columns (this w) (sorted_rows (this w) rs)) = false ->
  exists w',
    renderRows l isSelectedFn w = (Throw TypeError, w')
    /\ thead (this w') = thead (this w)
    /\ tbody (this w') = tbody (this w)
    /\ rows (this w') = Some l
    /\ renderedColumns (this w')
       = Some (rendered_columns (this w) (sorted_rows (this w) rs))
    /\ arrays w' !! l = Some (sorted_rows (this w) rs).
Proof.
  intros Harr Hne Hfmt Hhead.
  pose proof (renderRows_array l isSelectedFn w rs Harr Hne) as Ha.
  destruct rs as [|r rs]; [done|].
  destruct (renderRows_in_place l isSelectedFn w r rs Harr) as [_ Hrows].
  cut (throws (renderRows l isSelectedFn) w TypeError
         (fun w' => thead (this w') = thead (this w)
                    /\ tbody (this w') = tbody (this w)
                    /\ renderedColumns (this w')
                       = Some (rendered_columns (this w)
                                 (sorted_rows (this w) (r :: rs))))).
  { intros (w' & Hrun & Hth & Htb & Hrc). rewrite Hrun in Ha, Hrows.
    exists w'. done. }
  pose proof (sorted_rows_length (this w) (r :: rs)) as Hlen.
  remember (sorted_rows (this w) (r :: rs)) as rs' eqn:Hrs'.
  unfold renderRows.
  apply throws_bind_r, returns_update.
  apply throws_bind_r. eapply returns_deref; [exact Harr|].
  apply throws_bind_r, returns_get_this.
  set (t := this (with_this (set_rows l (this w)) w)).
  apply throws_bind_r.
  apply (returns_mono _ _
           (fun _ w2 => arrays w2 !! l = Some rs' /\ this w2 = t)).
  { unfold sorted_rows in Hrs'.
    change (sortOptions t) with (sortOptions (this w)).
    destruct (sortOptions (this w)) as [o|].
    - apply returns_store. subst rs'. split; [apply lookup_insert_eq|done].
    - apply returns_ret. by subst rs'. }
  intros _ w2 [Hw2 Ht2].
  apply throws_bind_r. eapply returns_deref; [exact Hw2|].
  destruct rs' as [|row0 rest]; [discriminate Hlen|].
  unfold rendered_columns in *. simpl head in *. simpl default in Hhead, Hfmt.
  change (columns (this w)) with (columns t) in *.
  set (cols := default (map fst row0) (columns t)) in *.
  assert (Hfmt' : formatters_total t cols) by exact Hfmt.
  apply throws_bind_r, returns_update.
  apply throws_bind_r, returns_with_locales.
  eapply returns_mono;
    [apply forM_returns; intros; by apply (colStyle_returns t cols)|].
  intros colStyles c1 HcolStyles. cbv beta.
  apply Forall2_length in HcolStyles.
  apply throws_bind_l. eexists. split.
  { unfold lift_completion.
    by rewrite (header_cells_throw t cols colStyles HcolStyles Hhead). }
  simpl. by rewrite Ht2.
Qed.

End Markup.

(** ** Rendering again, and the sort state between renders *)

Section Again.
Context `{Host}.

Lemma comparator_sorted (ok : value -> bool) (order column : option jsstring)
    (rs : list row) :
  comparable ok ->
  Forall (fun r => ok (get r column) = true) rs ->
  StronglySorted (before (comparator order column))
    (stable_sort (comparator order column) rs).
Proof.
  intros [Hasym Hneg] Hok.
  apply (stable_sort_sorted _ (fun r : row => ok (get r column) = true));
    [| |exact Hok]; unfold before, comparator; destruct (bool_decide _).
  - intros a b c Ha Hb Hc. rewrite !compare_before by auto.
    intros Hba Hcb. destruct (less_than (get c column) (get a column)) eqn:Hca;
      [|done]. destruct (Hneg _ (get b column) _ Hc Hb Ha Hca); congruence.
  - intros a b c Ha Hb Hc. rewrite !compare_before by auto.
    intros Hab Hbc. destruct (less_than (get a column) (get c column)) eqn:Hac;
      [|done]. destruct (Hneg _ (get b column) _ Ha Hb Hc Hac); congruence.
  - intros a b Ha Hb. rewrite !compare_before by auto.
    destruct (less_than (get b column) (get a column)) eqn:Hba; [|by left].
    right. by apply Hasym.
  - intros a b Ha Hb. rewrite !compare_before by auto.
    destruct (less_than (get a column) (get b column)) eqn:Hab; [|by left].
    right. by apply Hasym.
Qed.

(** X14.  Rendering the same array a second time, under the sort state
    of the first render, moves no row: on a sort column of numbers
    without NaN, or of strings, the order the first render left is the
    order the second one leaves, whatever either render throws. *)
Theorem renderRows_again (l : loc)
    (isSelectedFn isSelectedFn' : option (row -> bool)) (w : World)
    (rs : list row) (o : sortState) :
  arrays w !! l = Some rs ->
  sortOptions (this w) = Some o ->
  Forall (fun r => numeric (get r (own_property (js "column") o)) = true) rs
  \/ Forall (fun r => is_string (get r (own_property (js "column") o)) = true) rs ->
  arrays (snd (renderRows l isSelectedFn'
                 (snd (renderRows l isSelectedFn w))))
  = arrays (snd (renderRows l isSelectedFn w)).
Proof.
  intros Harr Hso Hcol.
  pose proof (renderRows_read_by_render l isSelectedFn w) as Hread.
  unfold read_by_render in Hread. injection Hread as _ _ _ Hso1 _ _ _.
  rewrite Hso in Hso1.
  rewrite (renderRows_arrays l isSelectedFn'), Hso1.
  rewrite (renderRows_arrays l isSelectedFn w), Harr, Hso.
  destruct rs as [|r rs]; [by rewrite Harr|].
  rewrite lookup_insert_eq.
  pose proof (sorted_rows_length (this w) (r :: rs)) as Hlen.
  destruct (sorted_rows (this w) (r :: rs)) as [|r' rs'] eqn:Hsorted;
    [done|].
  rewrite insert_insert_eq. f_equal. rewrite <- Hsorted.
  unfold sorted_rows. rewrite Hso, Hso1.
  assert (Hsame : exists ok, comparable ok
            /\ Forall (fun r => ok (get r (own_property (js "column") o)) = true)
                 (r :: rs)).
  { destruct Hcol as [Hcol|Hcol];
      [exists numeric; split; [apply comparable_numeric|done]
      |exists is_string; split; [apply comparable_string|done]]. }
  destruct Hsame as (ok & Hok & Hall).
  rewrite (Array_sort_consistent _ (r :: rs))
    by (by apply (comparator_consistent ok)).
  rewrite Array_sort_consistent.
  - apply stable_sort_fixed. by apply (comparator_sorted ok).
  - apply (comparator_consistent ok); [done|].
    by rewrite stable_sort_perm.
Qed.

(** X15.  [setSortOptions] by itself moves no row, redraws nothing and
    dispatches no event; the render that follows leaves in the caller's
    array what [Array.prototype.sort] makes of it under the comparator of
    the state stored, which is the stable sorted order when that
    comparator is consistent for the rows, and it leaves the array as it
    is when the state stored is [undefined]. *)
Theorem setSortOptions_then_render (next : option sortState) (l : loc)
    (isSelectedFn : option (row -> bool)) (w : World) (rs : list row) :
  arrays w !! l = Some rs ->
  arrays (snd (setSortOptions next w)) = arrays w
  /\ thead (this (snd (setSortOptions next w))) = thead (this w)
  /\ tbody (this (snd (setSortOptions next w))) = tbody (this w)
  /\ dispatched (snd (setSortOptions next w)) = dispatched w
  /\ arrays (snd (renderRows l isSelectedFn (snd (setSortOptions next w)))) !! l
     = Some match next with
            | Some o =>
                Array_sort (comparator (own_property (js "order") o)
                              (own_property (js "column") o)) rs
            | None => rs
            end
  /\ forall o,
       next = Some o ->
       consistent (comparator (own_property (js "order") o)
                     (own_property (js "column") o)) rs = true ->
       arrays (snd (renderRows l isSelectedFn (snd (setSortOptions next w)))) !! l
       = Some (stable_sort (comparator (own_property (js "order") o)
                              (own_property (js "column") o)) rs).
Proof.
  intros Harr. rewrite setSortOptions_run. simpl snd.
  repeat (split; [reflexivity|]).
  rewrite renderRows_arrays. simpl. rewrite Harr.
  assert (Hrender :
    match rs with
    | [] => arrays w
    | r :: rs0 =>
        match next with
        | Some _ =>
            <[l := sorted_rows (set_sortOptions next (this w)) (r :: rs0)]>
              (arrays w)
        | None => arrays w
        end
    end !! l
    = Some match next with
           | Some o =>
               Array_sort (comparator (own_property (js "order") o)
                             (own_property (js "column") o)) rs
           | None => rs
           end).
  { destruct rs as [|r rs], next as [o|]; try done.
    unfold sorted_rows. simpl. by rewrite lookup_insert_eq. }
  split; [exact Hrender|].
  intros o -> Hconsistent. rewrite Hrender.
  by rewrite Array_sort_consistent.
Qed.

Lemma onClick_sort_column (w : World) (cols : list jsstring) (i : nat)
    (column order : jsstring) :
  renderedColumns (this w) = Some cols ->
  cols !! i = Some column ->
  sortOptions (this w) = Some [(js "column", column); (js "order", order)] ->
  onClick (TH i) w
  = (Return tt,
     with_event
       (sortChange
          (Some [(js "column", column);
                 (js "order",
                  if bool_decide (order = js "asc") then js "desc"
                  else js "asc")]))
       (with_this
          (set_sortOptions
             (Some [(js "column", column);
                    (js "order",
                     if bool_decide (order = js "asc") then js "desc"
                     else js "asc")])
             (this w)) w)).
Proof.
  intros Hcols Hi Hso. rewrite onClick_run, Hcols. cbv zeta.
  rewrite Hi, Hso. unfold same_column. cbn [own_property].
  rewrite decide_True by done. rewrite bool_decide_eq_true_2 by done.
  rewrite decide_False by done. rewrite decide_True by done.
  cbn [new_sortOptions].
  destruct (decide (order = js "asc")) as [->|Hne].
  - by rewrite !bool_decide_eq_true_2 by done.
  - rewrite !bool_decide_eq_false_2; [done|done|]. by intros [= ?].
Qed.

(** X16.  Two clicks on the header of the sort column bring the sort
    state back: from a state of that column with the order "asc" or
    "desc", the first click stores the other order, the second the first
    order again, and the two [sortChange] events carry those two states
    in turn. *)
Theorem header_click_twice (w : World) (cols : list jsstring) (i : nat)
    (column order : jsstring) :
  renderedColumns (this w) = Some cols ->
  cols !! i = Some column ->
  sortOptions (this w) = Some [(js "column", column); (js "order", order)] ->
  order = js "asc" \/ order = js "desc" ->
  sortOptions (this (snd (onClick (TH i) w)))
  = Some [(js "column", column);
          (js "order", if bool_decide (order = js "asc") then js "desc"
                       else js "asc")]
  /\ sortOptions (this (snd (onClick (TH i) (snd (onClick (TH i) w)))))
     = sortOptions (this w)
  /\ dispatched (snd (onClick (TH i) (snd (onClick (TH i) w))))
     = dispatched w
       ++ [sortChange (sortOptions (this (snd (onClick (TH i) w))));
           sortChange (sortOptions (this w))].
Proof.
  intros Hcols Hi Hso Horder.
  rewrite (onClick_sort_column w cols i column order Hcols Hi Hso).
  cbn [snd].
  erewrite (onClick_sort_column _ cols i column); [|exact Hcols|exact Hi|done].
  cbn [snd]. simpl sortOptions. simpl dispatched.
  rewrite Hso, <- app_assoc. simpl app.
  destruct Horder as [-> | ->]; done.
Qed.

Lemma filter_insert_sorted {A} (cmp : A -> A -> Z) (p : A -> bool) (x : A)
    (l : list A) :
  (forall a b, p a = true -> p b = true -> cmp a b = 0%Z) ->
  List.filter p (insert_sorted cmp x l) = List.filter p (x :: l).
Proof.
  intros Hties. induction l as [|y l IH]; [done|]. cbn [insert_sorted].
  destruct (Z.ltb_spec 0 (cmp x y)) as [Hgt|Hle]; [|done].
  cbn [List.filter] in *. rewrite IH.
  destruct (p x) eqn:Hx, (p y) eqn:Hy; try done.
  rewrite (Hties x y Hx Hy) in Hgt. lia.
Qed.

Lemma filter_stable_sort {A} (cmp : A -> A -> Z) (p : A -> bool) (l : list A) :
  (forall a b, p a = true -> p b = true -> cmp a b = 0%Z) ->
  List.filter p (stable_sort cmp l) = List.filter p l.
Proof.
  intros Hties. induction l as [|x l IH]; [done|].
  change (stable_sort cmp (x :: l))
    with (insert_sorted cmp x (stable_sort cmp l)).
  rewrite filter_insert_sorted by done. cbn [List.filter]. by rewrite IH.
Qed.

(** X17.  The sort of a render is stable where the comparator is
    consistent for the rows of the array (as it is on a sort column of
    numbers without NaN, or of strings): the rows of any group whose
    members the comparator ranks equal, such as the rows that hold one
    same value in the sort column, stand in the caller's array after the
    render in the order they came in. *)
Theorem renderRows_stable (l : loc) (isSelectedFn : option (row -> bool))
    (w : World) (rs : list row) (o : sortState) (group : row -> bool) :
  arrays w !! l = Some rs ->
  sortOptions (this w) = Some o ->
  consistent
    (comparator (own_property (js "order") o) (own_property (js "column") o))
    rs = true ->
  (forall r1 r2, group r1 = true -> group r2 = true ->
     comparator (own_property (js "order") o) (own_property (js "column") o)
       r1 r2 = 0%Z) ->
  exists rs',
    arrays (snd (renderRows l isSelectedFn w)) !! l = Some rs'
    /\ List.filter group rs' = List.filter group rs.
Proof.
  intros Harr Hso Hconsistent Hties. rewrite renderRows_arrays, Harr, Hso.
  destruct rs as [|r rs]; [by exists []|].
  eexists. rewrite lookup_insert_eq. split; [done|].
  unfold sorted_rows. rewrite Hso, Array_sort_consistent by done.
  by apply filter_stable_sort.
Qed.

(** X18.  A sort state on a column that no row has (or on no column)
    moves no row: every comparison is between [undefined] and
    [undefined], no pair is swapped, and the render leaves the arrays of
    the page as they were. *)
Theorem renderRows_sort_column_absent (l : loc)
    (isSelectedFn : option (row -> bool)) (w : World) (rs : list row)
    (o : sortState) :
  arrays w !! l = Some rs ->
  sortOptions (this w) = Some o ->
  Forall (fun r => own_property (property_key (own_property (js "column") o)) r
                   = None) rs ->
  arrays (snd (renderRows l isSelectedFn w)) = arrays w.
Proof.
  intros Harr Hso Habsent. rewrite renderRows_arrays, Harr, Hso.
  destruct rs as [|r rs]; [done|].
  assert (Hzero : forall r1 r2, r1 ∈ r :: rs -> r2 ∈ r :: rs ->
            comparator (own_property (js "order") o)
              (own_property (js "column") o) r1 r2 = 0%Z).
  { rewrite Forall_forall in Habsent. intros r1 r2 H1 H2.
    unfold comparator, get.
    rewrite (Habsent r1 H1), (Habsent r2 H2). by destruct (bool_decide _). }
  unfold sorted_rows. rewrite Hso, Array_sort_consistent.
  2:{ apply consistent_true; intros; rewrite ?Hzero in *; auto; lia. }
  rewrite stable_sort_fixed; [by apply insert_id|].
  assert (Hbefore : forall r1 r2, r1 ∈ r :: rs -> r2 ∈ r :: rs ->
            before (comparator (own_property (js "order") o)
                      (own_property (js "column") o)) r1 r2).
  { intros r1 r2 H1 H2. unfold before. by rewrite Hzero. }
  clear Harr Habsent Hzero. rename Hbefore into Hzero.
  induction (r :: rs) as [|x xs IH]; constructor.
  - apply IH. intros r1 r2 H1 H2. apply Hzero; by apply list_elem_of_further.
  - apply Forall_forall. intros y Hy.
    apply Hzero; [apply list_elem_of_here|by apply list_elem_of_further].
Qed.

End Again.

(** ** Removing columns *)

Section RemoveColumns.
Context `{Host}.

Lemma with_array_same (l : loc) (rs : list row) (w : World) :
  arrays w !! l = Some rs -> with_array l rs w = w.
Proof.
  intros Hl. destruct w as [t a c d]. unfold with_array. simpl in *.
  by rewrite insert_id.
Qed.

Lemma with_array_twice (l : loc) (rs1 rs2 : list row) (w : World) :
  with_array l rs2 (with_array l rs1 w) = with_array l rs2 w.
Proof. unfold with_array. simpl. by rewrite insert_insert_eq. Qed.

Lemma update_row_run (l : loc) (i : nat) (f : row -> row) (w : World)
    (rs : list row) (r : row) :
  arrays w !! l = Some rs -> rs !! i = Some r ->
  update_row l i f w = (Return tt, with_array l (<[i := f r]> rs) w).
Proof.
  intros Hl Hi. unfold update_row, deref, store. st_unfold.
  by rewrite Hl, Hi.
Qed.

(** The inner loop: the columns go from one row, one after the other. *)
Lemma removeColumns_row (l : loc) (i : nat) (cols : list jsstring) (w : World)
    (rs : list row) (r : row) :
  arrays w !! l = Some rs -> rs !! i = Some r ->
  exists us,
    forM (fun col => update_row l i (delete_property col)) cols w
    = (Return us, with_array l (<[i := without cols r]> rs) w).
Proof.
  revert w rs r. induction cols as [|col cols IH]; intros w rs r Hl Hi.
  { exists []. simpl. unfold without. simpl.
    by rewrite (list_insert_id rs i r Hi), (with_array_same l rs w Hl). }
  cbn [forM].
  rewrite (bind_run _ _ _ _ _ (update_row_run l i _ w rs r Hl Hi)).
  destruct (IH (with_array l (<[i := delete_property col r]> rs) w)
              (<[i := delete_property col r]> rs) (delete_property col r))
    as (us & Hus).
  { simpl. apply lookup_insert_eq. }
  { apply list_lookup_insert_eq. by eapply lookup_lt_Some. }
  exists (tt :: us). rewrite (bind_run _ _ _ _ _ Hus).
  by rewrite list_insert_insert_eq, with_array_twice.
Qed.

(** The outer loop, from the rows already done to the rows to do. *)
Lemma removeColumns_rows (l : loc) (cols : list jsstring) (w : World)
    (done_ todo : list row) :
  arrays w !! l = Some (done_ ++ todo) ->
  exists us,
    forM (fun i => forM (fun col => update_row l i (delete_property col)) cols)
      (seq (length done_) (length todo)) w
    = (Return us, with_array l (done_ ++ (without cols <$> todo)) w).
Proof.
  revert w done_. induction todo as [|r todo IH]; intros w done_ Hl.
  { exists []. simpl. by rewrite (with_array_same l _ w Hl). }
  cbn [length seq forM].
  destruct (removeColumns_row l (length done_) cols w (done_ ++ r :: todo) r Hl)
    as (us1 & Hus1); [by apply list_lookup_middle|].
  rewrite (bind_run _ _ _ _ _ Hus1).
  replace (<[length done_ := without cols r]> (done_ ++ r :: todo))
    with ((done_ ++ [without cols r]) ++ todo).
  2:{ rewrite <- (Nat.add_0_r (length done_)) at 1.
      rewrite insert_app_r. simpl. by rewrite <- app_assoc. }
  destruct (IH (with_array l ((done_ ++ [without cols r]) ++ todo) w)
              (done_ ++ [without cols r])) as (us & Hus).
  { simpl. apply lookup_insert_eq. }
  rewrite length_app, Nat.add_1_r in Hus.
  exists (us1 :: us). rewrite (bind_run _ _ _ _ _ Hus).
  rewrite with_array_twice, <- app_assoc. done.
Qed.

(** [removeColumns] as a function of the array it is given. *)
Lemma removeColumns_run (l : loc) (cols : list jsstring) (w : World) :
  removeColumns l cols w
  = match arrays w !! l with
    | Some rs => (Return tt, with_array l (without cols <$> rs) w)
    | None => (Throw TypeError, w)
    end.
Proof.
  unfold removeColumns. destruct (arrays w !! l) as [rs|] eqn:Hl.
  - rewrite (bind_run (deref l) _ w w rs)
      by (unfold deref; by rewrite Hl).
    destruct (removeColumns_rows l cols w [] rs Hl) as (us & Hus).
    simpl in Hus. by rewrite (bind_run _ _ _ _ _ Hus).
  - apply bind_throw. unfold deref. by rewrite Hl.
Qed.

Lemma filter_all {A} (P : A -> Prop) `{forall x, Decision (P x)} (l : list A) :
  (forall x, P x) -> filter P l = l.
Proof.
  intros HP. induction l as [|x l IH]; [done|].
  by rewrite filter_cons_True, IH by done.
Qed.

Lemma own_property_delete {V} (key k : jsstring) (o : list (jsstring * V)) :
  own_property k (delete_property key o)
  = if decide (k = key) then None else own_property k o.
Proof.
  induction o as [|[k' v] o IH]; simpl; [by destruct (decide (k = key))|].
  destruct (decide (k' = key)) as [->|Hne]; simpl; rewrite IH.
  - destruct (decide (k = key)) as [->|Hk]; [done|].
    by rewrite decide_False by congruence.
  - destruct (decide (k' = k)) as [->|Hk]; [|done].
    by rewrite decide_False by done.
Qed.

Lemma keys_delete {V} (key : jsstring) (o : list (jsstring * V)) :
  (delete_property key o).*1 = filter (fun k => k <> key) (o.*1).
Proof.
  induction o as [|[k v] o IH]; [done|].
  cbn [delete_property]. rewrite fmap_cons. cbn [fst].
  destruct (decide (k = key)) as [->|Hne].
  - by rewrite filter_cons_False by (intros Hn; by apply Hn).
  - by rewrite filter_cons_True, fmap_cons, IH by done.
Qed.

Lemma own_property_without (cols : list jsstring) (k : jsstring) (r : row) :
  own_property k (without cols r)
  = if bool_decide (k ∈ cols) then None else own_property k r.
Proof.
  unfold without. revert r.
  induction cols as [|col cols IH]; intros r; cbn [foldl].
  { by rewrite bool_decide_eq_false_2 by apply not_elem_of_nil. }
  rewrite IH, own_property_delete.
  destruct (decide (k = col)) as [->|Hne].
  - rewrite (bool_decide_eq_true_2 (col ∈ col :: cols)) by apply list_elem_of_here.
    by destruct (bool_decide _).
  - destruct (decide (k ∈ cols)) as [Hin|Hin].
    + rewrite !bool_decide_eq_true_2; [done| |done]. by apply list_elem_of_further.
    + rewrite !bool_decide_eq_false_2; [done| |done].
      intros [?|?]%elem_of_cons; done.
Qed.

Lemma keys_without (cols : list jsstring) (r : row) :
  (without cols r).*1 = filter (fun k => k ∉ cols) (r.*1).
Proof.
  unfold without. revert r.
  induction cols as [|col cols IH]; intros r; cbn [foldl].
  { symmetry. apply filter_all. intros k. apply not_elem_of_nil. }
  rewrite IH, keys_delete, list_filter_filter. apply list_filter_iff.
  intros k. rewrite not_elem_of_cons. tauto.
Qed.

(** X19.  [removeColumns] completes on every array and writes nothing
    but the rows of that array: each row stays at its index and loses the
    listed columns, a column that a row does not have being no error; the
    columns that are not listed keep their values and their order. *)
Theorem removeColumns_removes (l : loc) (cols : list jsstring) (w : World)
    (rs : list row) :
  arrays w !! l = Some rs ->
  exists rs',
    removeColumns l cols w = (Return tt, with_array l rs' w)
    /\ length rs' = length rs
    /\ forall i r,
         rs !! i = Some r ->
         exists r',
           rs' !! i = Some r'
           /\ (forall key,
                 own_property key r'
                 = if bool_decide (key ∈ cols) then None
                   else own_property key r)
           /\ r'.*1 = filter (fun k => k ∉ cols) (r.*1).
Proof.
  intros Hl. exists (without cols <$> rs).
  rewrite removeColumns_run, Hl. split; [done|].
  split; [by rewrite length_fmap|]. intros i r Hi.
  exists (without cols r). rewrite list_lookup_fmap, Hi.
  split; [done|]. split; [|apply keys_without].
  intros key. apply own_property_without.
Qed.

Lemma without_filter (cols : list jsstring) (r : row) :
  without cols r = filter (fun kv => kv.1 ∉ cols) r.
Proof.
  unfold without. revert r.
  induction cols as [|col cols IH]; intros r; cbn [foldl].
  { symmetry. apply filter_all. intros k. apply not_elem_of_nil. }
  rewrite IH.
  assert (Hdel : delete_property col r = filter (fun kv => kv.1 <> col) r).
  { clear. induction r as [|[k v] r IHr]; simpl; [done|].
    destruct (decide (k = col)) as [->|Hne].
    - by rewrite filter_cons_False by (intros Hn; by apply Hn).
    - rewrite filter_cons_True by done. by rewrite IHr. }
  rewrite Hdel, list_filter_filter. apply list_filter_iff.
  intros [k v]. simpl. rewrite not_elem_of_cons. tauto.
Qed.

(** X20.  What [removeColumns] leaves depends on which columns are
    listed, not on their order or on how often one is listed; and
    removing the same columns a second time changes nothing. *)
Theorem removeColumns_set (l : loc) (cols cols' : list jsstring) (w : World) :
  (forall c, c ∈ cols <-> c ∈ cols') ->
  removeColumns l cols w = removeColumns l cols' w
  /\ snd (removeColumns l cols' (snd (removeColumns l cols w)))
     = snd (removeColumns l cols w).
Proof.
  intros Hsame.
  assert (Hrow : forall r, without cols r = without cols' r).
  { intros r. rewrite !without_filter. apply list_filter_iff.
    intros kv. by rewrite Hsame. }
  assert (Hidem : forall r, without cols' (without cols r) = without cols r).
  { intros r. rewrite <- Hrow, !without_filter, list_filter_filter.
    apply list_filter_iff. tauto. }
  rewrite !removeColumns_run. destruct (arrays w !! l) as [rs|] eqn:Hl.
  - split.
    + do 2 f_equal. apply list_fmap_ext. intros _ r _. apply Hrow.
    + simpl. rewrite lookup_insert_eq. simpl.
      rewrite with_array_twice. f_equal.
      rewrite <- list_fmap_compose. apply list_fmap_ext. intros _ r _.
      apply Hidem.
  - split; [done|]. simpl. by rewrite Hl.
Qed.

Lemma sorted_rows_perm (t : DataTable) (rs : list row) :
  sorted_rows t rs ≡ₚ rs.
Proof.
  unfold sorted_rows. destruct (sortOptions t); [|done]. apply Array_sort_perm.
Qed.

(** X21.  Columns removed from the rows are not rendered: when the
    component has no configured columns, the render that follows
    [removeColumns] takes its columns from a row of the array, and they
    are the keys of that row without the removed ones, in their order. *)
Theorem removeColumns_then_render (l : loc) (cols : list jsstring)
    (isSelectedFn : option (row -> bool)) (w : World) (rs : list row) :
  arrays w !! l = Some rs ->
  rs <> [] ->
  columns (this w) = None ->
  exists r,
    r ∈ rs
    /\ renderedColumns
         (this (snd (renderRows l isSelectedFn
                       (snd (removeColumns l cols w)))))
       = Some (filter (fun k => k ∉ cols) (r.*1)).
Proof.
  intros Hl Hne Hcolumns. rewrite removeColumns_run, Hl. cbn [snd].
  destruct rs as [|r0 rs0]; [done|].
  set (w1 := with_array l (without cols <$> r0 :: rs0) w).
  rewrite (renderRows_renderedColumns l isSelectedFn w1 (without cols r0)
             (without cols <$> rs0)) by apply lookup_insert_eq.
  pose proof (sorted_rows_perm (this w1) (without cols r0 :: (without cols <$> rs0)))
    as Hperm.
  unfold rendered_columns.
  change (columns (this w1)) with (columns (this w)). rewrite Hcolumns.
  destruct (sorted_rows (this w1) _) as [|row0 rest] eqn:Hsorted.
  { apply Permutation_length in Hperm. done. }
  assert (Hin : row0 ∈ without cols <$> r0 :: rs0).
  { rewrite fmap_cons, <- Hperm. apply list_elem_of_here. }
  apply list_elem_of_fmap in Hin as (r & -> & Hr).
  exists r. split; [done|]. simpl. f_equal. apply keys_without.
Qed.

(** X22.  The component keeps the caller's array, not a copy of it: a
    cell click after [removeColumns] reports what the row holds now,
    [undefined] for a column that was removed and the value as before
    for any other. *)
Theorem cell_click_after_removeColumns (l : loc) (removed : list jsstring)
    (w : World) (cols : list jsstring) (rs : list row) (i j : nat) (r : row)
    (c : jsstring) (shiftKey : bool) :
  renderedColumns (this w) = Some cols ->
  rows (this w) = Some l ->
  arrays w !! l = Some rs ->
  rs !! i = Some r ->
  cols !! j = Some c ->
  onClick (TD j i shiftKey) (snd (removeColumns l removed w))
  = (Return tt,
     with_event
       (cellClick (Some c)
          (if bool_decide (c ∈ removed) then VUndefined else get r (Some c))
          (if shiftKey then js "toggle" else js "select"))
       (snd (removeColumns l removed w))).
Proof.
  intros Hcols Hrows Hl Hi Hj. rewrite removeColumns_run, Hl. cbn [snd].
  rewrite onClick_run.
  change (renderedColumns (this (with_array l (without removed <$> rs) w)))
    with (renderedColumns (this w)).
  change (rows (this (with_array l (without removed <$> rs) w)))
    with (rows (this w)).
  rewrite Hcols, Hrows. simpl arrays. rewrite lookup_insert_eq.
  rewrite list_lookup_fmap, Hi, Hj. simpl. do 3 f_equal.
  unfold get. simpl. rewrite own_property_without.
  by destruct (bool_decide (c ∈ removed)).
Qed.

End RemoveColumns.

(** ** Adding metrics *)

Section AddMetrics.

Lemma strict_bind_run {A B} (m : Strict A) (k : A -> Strict B) (w w' : World)
    (a : A) :
  m w = (Normal a, w') -> (m ≫= k) w = k a w'.
Proof. intros Hm. unfold mbind, Strict_bind. by rewrite Hm. Qed.

Lemma of_ST_deref (l : loc) (w : World) (rs : list row) :
  arrays w !! l = Some rs -> of_ST (deref l) w = (Normal rs, w).
Proof. intros Hl. unfold of_ST, deref. by rewrite Hl. Qed.

(** X23.  In a module that declares none of [row], [metric] and [fn],
    on a page whose global object binds none of them either, [addMetrics]
    adds nothing: with rows to work on and a metric to add it throws a
    [ReferenceError] before it has written to any row, and it completes
    only when the array is empty. *)
Theorem addMetrics_undeclared (g : Globals) (l : loc)
    (metricToFn : list (jsstring * metricFn)) (w : World) (rs : list row) :
  arrays w !! l = Some rs ->
  metricToFn <> [] ->
  row_bound g && metric_bound g && fn_bound g = false ->
  addMetrics g l metricToFn w
  = (match rs with [] => Normal tt | _ => ReferenceError end, w).
Proof.
  intros Hl Hm Hg. unfold addMetrics.
  rewrite (strict_bind_run _ _ _ _ _ (of_ST_deref l w rs Hl)).
  destruct rs as [|r rs]; [reflexivity|].
  destruct metricToFn as [|entry m]; [done|].
  cbn [length seq for_of]. unfold assign_undeclared, mbind, Strict_bind.
  destruct g as [[] [] []]; simpl in *; done.
Qed.

Lemma own_property_assign (key k : jsstring) (v : value) (o : row) :
  is_Some (own_property key o) ->
  own_property k (assign_property key v o)
  = if decide (k = key) then Some v else own_property k o.
Proof.
  induction o as [|[k' u] o IH]; simpl; [by intros [? ?]|].
  destruct (decide (k' = key)) as [->|Hne]; simpl.
  - intros _. destruct (decide (key = k)) as [<-|Hk].
    + by rewrite decide_True by done.
    + by rewrite decide_False by congruence.
  - intros Hsome. destruct (decide (k' = k)) as [->|Hk].
    + by rewrite decide_False by done.
    + by apply IH.
Qed.

Lemma own_property_define (key k : jsstring) (v : value) (o : row) :
  own_property key o = None ->
  own_property k (define_property key v o)
  = if decide (k = key) then Some v else own_property k o.
Proof.
  induction o as [|[k' u] o IH]; simpl.
  { intros _. destruct (decide (key = k)) as [<-|Hk].
    - by rewrite decide_True by done.
    - by rewrite decide_False by congruence. }
  destruct (decide (k' = key)) as [->|Hne]; [done|]. intros Hnone.
  destruct (enumerated_before key k'); simpl.
  - destruct (decide (key = k)) as [<-|Hk].
    + by rewrite decide_True by done.
    + by rewrite (decide_False (P := k = key)) by congruence.
  - destruct (decide (k' = k)) as [->|Hk].
    + by rewrite decide_False by done.
    + by apply IH.
Qed.

Lemma own_property_set (key k : jsstring) (v : value) (o : row) :
  own_property k (set_property key v o)
  = if decide (k = key) then Some v else own_property k o.
Proof.
  unfold set_property. destruct (own_property key o) as [u|] eqn:Hkey.
  - apply own_property_assign. by rewrite Hkey.
  - by apply own_property_define.
Qed.

Section Bound.
Context (g : Globals) (l : loc) (metricToFn : list (jsstring * metricFn)).
Hypothesis bound : row_bound g && metric_bound g && fn_bound g = true.
Hypothesis total :
  forall entry r, entry ∈ metricToFn -> exists v, entry.2 r = Return v.

(** The inner loop: the metrics are set on one row, one after the
    other, each function reading the row as the ones before left it. *)
Lemma addMetrics_row (i : nat) (m : list (jsstring * metricFn)) (w : World)
    (rs : list row) (r : row) :
  m ⊆ metricToFn ->
  arrays w !! l = Some rs -> rs !! i = Some r ->
  for_of (fun entry : jsstring * metricFn =>
            _ ← assign_undeclared (metric_bound g);
            _ ← assign_undeclared (fn_bound g);
            rs ← of_ST (deref l);
            match rs !! i with
            | Some r =>
                v ← of_ST (lift_completion (entry.2 r));
                of_ST (store l (<[i := set_property entry.1 v r]> rs))
            | None => of_ST (throw TypeError)
            end) m w
  = (Normal tt, with_array l (<[i := with_metrics m r]> rs) w).
Proof using bound total.
  assert (Hflags : metric_bound g = true /\ fn_bound g = true).
  { by apply andb_prop in bound as [[? ?]%andb_prop ?]. }
  destruct Hflags as [-> ->]. unfold metricFn in *.
  revert w rs r. induction m as [|entry m IH]; intros w rs r Hsub Hl Hi.
  { simpl. unfold with_metrics. simpl.
    by rewrite (list_insert_id rs i r Hi), (with_array_same l rs w Hl). }
  cbn [for_of].
  destruct (total entry r) as [v Hv]; [apply Hsub, list_elem_of_here|].
  erewrite strict_bind_run; [|].
  2:{ unfold mbind, Strict_bind, assign_undeclared.
      rewrite (of_ST_deref l w rs Hl), Hi. unfold of_ST, lift_completion.
      rewrite Hv. reflexivity. }
  rewrite (IH (with_array l (<[i := set_property entry.1 v r]> rs) w)
             (<[i := set_property entry.1 v r]> rs)
             (set_property entry.1 v r)).
  - rewrite list_insert_insert_eq, with_array_twice.
    unfold with_metrics, metricFn. cbn [foldl]. by rewrite Hv.
  - intros x Hx. apply Hsub. by apply list_elem_of_further.
  - simpl. apply lookup_insert_eq.
  - apply list_lookup_insert_eq. by eapply lookup_lt_Some.
Qed.

(** The outer loop, from the rows already done to the rows to do. *)
Lemma addMetrics_rows (w : World) (done_ todo : list row) :
  arrays w !! l = Some (done_ ++ todo) ->
  for_of (fun i =>
            _ ← assign_undeclared (row_bound g);
            for_of (fun entry : jsstring * metricFn =>
                      _ ← assign_undeclared (metric_bound g);
                      _ ← assign_undeclared (fn_bound g);
                      rs ← of_ST (deref l);
                      match rs !! i with
                      | Some r =>
                          v ← of_ST (lift_completion (entry.2 r));
                          of_ST (store l (<[i := set_property entry.1 v r]> rs))
                      | None => of_ST (throw TypeError)
                      end)
              metricToFn)
    (seq (length done_) (length todo)) w
  = (Normal tt,
     with_array l (done_ ++ (with_metrics metricToFn <$> todo)) w).
Proof using bound total.
  assert (Hrow : row_bound g = true).
  { by apply andb_prop in bound as [[? ?]%andb_prop ?]. }
  revert w done_. induction todo as [|r todo IH]; intros w done_ Hl.
  { simpl. by rewrite (with_array_same l _ w Hl). }
  cbn [length seq for_of].
  erewrite strict_bind_run; [|].
  2:{ rewrite Hrow. erewrite strict_bind_run by reflexivity.
      apply (addMetrics_row (length done_) metricToFn w (done_ ++ r :: todo) r);
        [done|done|by apply list_lookup_middle]. }
  replace (<[length done_ := with_metrics metricToFn r]> (done_ ++ r :: todo))
    with ((done_ ++ [with_metrics metricToFn r]) ++ todo).
  2:{ rewrite <- (Nat.add_0_r (length done_)) at 1.
      rewrite insert_app_r. simpl. by rewrite <- app_assoc. }
  pose proof (IH (with_array l ((done_ ++ [with_metrics metricToFn r]) ++ todo) w)
                (done_ ++ [with_metrics metricToFn r])) as Hrest.
  rewrite length_app, Nat.add_1_r in Hrest. rewrite Hrest.
  - by rewrite with_array_twice, <- app_assoc.
  - simpl. apply lookup_insert_eq.
Qed.

Lemma addMetrics_run (w : World) (rs : list row) :
  arrays w !! l = Some rs ->
  addMetrics g l metricToFn w
  = (Normal tt, with_array l (with_metrics metricToFn <$> rs) w).
Proof using bound total.
  intros Hl. unfold addMetrics.
  rewrite (strict_bind_run _ _ _ _ _ (of_ST_deref l w rs Hl)).
  apply (addMetrics_rows w [] rs Hl).
Qed.

End Bound.

Lemma with_metrics_app (m1 m2 : list (jsstring * metricFn)) (r : row) :
  with_metrics (m1 ++ m2) r = with_metrics m2 (with_metrics m1 r).
Proof. apply foldl_app. Qed.

Lemma with_metrics_other (m : list (jsstring * metricFn)) (key : jsstring)
    (r : row) :
  key ∉ m.*1 -> own_property key (with_metrics m r) = own_property key r.
Proof.
  revert r. induction m as [|entry m IH]; intros r Hkey; [done|].
  rewrite fmap_cons in Hkey. apply not_elem_of_cons in Hkey as [Hne Hkey].
  change (with_metrics (entry :: m) r)
    with (with_metrics m match entry.2 r with
                         | Return v => set_property entry.1 v r
                         | Throw _ => r
                         end).
  rewrite IH by done. destruct (entry.2 r) as [v|e]; [|done].
  by rewrite own_property_set, decide_False by done.
Qed.

Lemma with_metrics_keeps (m : list (jsstring * metricFn)) (key : jsstring)
    (r : row) :
  is_Some (own_property key r) -> is_Some (own_property key (with_metrics m r)).
Proof.
  revert r. induction m as [|entry m IH]; intros r Hkey; [done|].
  change (with_metrics (entry :: m) r)
    with (with_metrics m match entry.2 r with
                         | Return v => set_property entry.1 v r
                         | Throw _ => r
                         end).
  apply IH. destruct (entry.2 r) as [v|e]; [|done].
  rewrite own_property_set. by destruct (decide (key = entry.1)).
Qed.

(** A metric is set on the row as the metrics before it left it. *)
Lemma with_metrics_split (metricToFn m1 m2 : list (jsstring * metricFn))
    (entry : jsstring * metricFn) (r : row) :
  (forall entry r, entry ∈ metricToFn -> exists v, entry.2 r = Return v) ->
  metricToFn = m1 ++ entry :: m2 ->
  exists v,
    entry.2 (with_metrics m1 r) = Return v
    /\ with_metrics metricToFn r
       = with_metrics m2 (set_property entry.1 v (with_metrics m1 r)).
Proof.
  unfold metricFn in *. intros Htotal ->.
  destruct (Htotal entry (with_metrics m1 r)) as [v Hv].
  { apply elem_of_app. right. apply list_elem_of_here. }
  exists v. split; [done|]. rewrite with_metrics_app.
  change (with_metrics (entry :: m2) (with_metrics m1 r))
    with (with_metrics m2 match entry.2 (with_metrics m1 r) with
                          | Return v => set_property entry.1 v (with_metrics m1 r)
                          | Throw _ => with_metrics m1 r
                          end).
  by rewrite Hv.
Qed.

Lemma with_metrics_has (metricToFn : list (jsstring * metricFn))
    (metric : jsstring) (r : row) :
  (forall entry r, entry ∈ metricToFn -> exists v, entry.2 r = Return v) ->
  metric ∈ metricToFn.*1 ->
  is_Some (own_property metric (with_metrics metricToFn r)).
Proof.
  intros Htotal Hin. apply list_elem_of_fmap in Hin as (entry & -> & Hin).
  apply list_elem_of_split in Hin as (m1 & m2 & Hm).
  destruct (with_metrics_split metricToFn m1 m2 entry r Htotal Hm)
    as (v & _ & ->).
  apply with_metrics_keeps. rewrite own_property_set.
  by rewrite decide_True by done.
Qed.

(** X24.  On a page whose global object binds the three names, with
    metric functions that return, [addMetrics] completes and writes
    nothing but the rows of the array: each row stays at its index and
    gets every metric as a property; the metrics are set in the order of
    the entries, each function reading the row as the metrics before it
    left it; and every column that is no metric keeps its value. *)
Theorem addMetrics_adds (g : Globals) (l : loc)
    (metricToFn : list (jsstring * metricFn)) (w : World) (rs : list row) :
  row_bound g && metric_bound g && fn_bound g = true ->
  (forall entry r, entry ∈ metricToFn -> exists v, entry.2 r = Return v) ->
  arrays w !! l = Some rs ->
  addMetrics g l metricToFn w
  = (Normal tt, with_array l (with_metrics metricToFn <$> rs) w)
  /\ forall r,
       (forall metric, metric ∈ metricToFn.*1 ->
          is_Some (own_property metric (with_metrics metricToFn r)))
       /\ (forall key, key ∉ metricToFn.*1 ->
             own_property key (with_metrics metricToFn r) = own_property key r)
       /\ forall m1 entry m2,
            metricToFn = m1 ++ entry :: m2 ->
            exists v,
              entry.2 (with_metrics m1 r) = Return v
              /\ with_metrics metricToFn r
                 = with_metrics m2 (set_property entry.1 v (with_metrics m1 r)).
Proof.
  intros Hbound Htotal Hl. split; [by apply addMetrics_run|].
  intros r. split; [|split].
  - intros metric Hin. by apply with_metrics_has.
  - intros key Hkey. by apply with_metrics_other.
  - intros m1 entry m2 Hm. by apply with_metrics_split.
Qed.

End AddMetrics.

(** ** Metrics and columns together *)

Section MetricsAndColumns.
Context `{Host}.

Lemma own_property_None {V} (key : jsstring) (o : list (jsstring * V)) :
  own_property key o = None <-> key ∉ o.*1.
Proof.
  induction o as [|[k v] o IH]; cbn [own_property].
  { split; [intros _; apply not_elem_of_nil|done]. }
  rewrite fmap_cons, not_elem_of_cons. cbn [fst].
  destruct (decide (k = key)) as [->|Hne].
  - split; [done|]. by intros [? _].
  - rewrite IH. split; [by split|by intros [_ ?]].
Qed.

Lemma filter_Forall_id {A} (P : A -> Prop) `{forall x, Decision (P x)}
    (l : list A) :
  Forall P l -> filter P l = l.
Proof.
  induction 1 as [|x l Hx Hl IH]; [done|].
  by rewrite filter_cons_True, IH by done.
Qed.

Lemma filter_set_property (names : list jsstring) (key : jsstring)
    (v : value) (o : row) :
  key ∈ names ->
  filter (fun kv : jsstring * value => kv.1 ∉ names) (set_property key v o)
  = filter (fun kv : jsstring * value => kv.1 ∉ names) o.
Proof.
  intros Hin. assert (Hkey : ~ (key ∉ names)) by (intros Hn; by apply Hn).
  unfold set_property. destruct (own_property key o) as [u|].
  - induction o as [|[k u'] o IH]; [done|]. cbn [assign_property].
    destruct (decide (k = key)) as [->|Hne].
    + by rewrite !filter_cons_False by done.
    + destruct (decide (k ∉ names)) as [Hk|Hk].
      * by rewrite !filter_cons_True, IH by done.
      * by rewrite !filter_cons_False by done.
  - induction o as [|[k u'] o IH]; cbn [define_property].
    { by rewrite filter_cons_False by done. }
    destruct (enumerated_before key k).
    + by rewrite filter_cons_False by done.
    + destruct (decide (k ∉ names)) as [Hk|Hk].
      * by rewrite !filter_cons_True, IH by done.
      * by rewrite !filter_cons_False by done.
Qed.

Lemma without_with_metrics (names : list jsstring)
    (m : list (jsstring * metricFn)) (r : row) :
  (forall k, k ∈ m.*1 -> k ∈ names) ->
  without names (with_metrics m r) = without names r.
Proof.
  rewrite !without_filter. revert r.
  induction m as [|entry m IH]; intros r Hnames; [done|].
  change (with_metrics (entry :: m) r)
    with (with_metrics m match entry.2 r with
                         | Return v => set_property entry.1 v r
                         | Throw _ => r
                         end).
  rewrite IH.
  2:{ intros k Hk. apply Hnames. rewrite fmap_cons. by apply list_elem_of_further. }
  destruct (entry.2 r) as [v|e]; [|done].
  apply filter_set_property, Hnames. rewrite fmap_cons.
  apply list_elem_of_here.
Qed.

(** X25.  A round trip: metrics added by [addMetrics] to rows that had
    none of the metric names, then removed by [removeColumns] with those
    names, leave the page exactly as it was before the two calls, with
    every row, its columns and their order. *)
Theorem addMetrics_then_removeColumns (g : Globals) (l : loc)
    (metricToFn : list (jsstring * metricFn)) (w : World) (rs : list row) :
  row_bound g && metric_bound g && fn_bound g = true ->
  (forall entry r, entry ∈ metricToFn -> exists v, entry.2 r = Return v) ->
  arrays w !! l = Some rs ->
  Forall (fun r => forall k, k ∈ metricToFn.*1 -> own_property k r = None) rs ->
  exists w1,
    addMetrics g l metricToFn w = (Normal tt, w1)
    /\ removeColumns l (metricToFn.*1) w1 = (Return tt, w).
Proof.
  intros Hbound Htotal Hl Hnew. eexists.
  split; [by apply addMetrics_run|].
  rewrite removeColumns_run. simpl. rewrite lookup_insert_eq.
  rewrite with_array_twice. f_equal. rewrite <- (with_array_same l rs w Hl) at 2.
  f_equal. rewrite <- list_fmap_compose.
  rewrite <- (list_fmap_id rs) at 2. apply Forall_fmap_ext_1.
  eapply Forall_impl; [exact Hnew|]. intros r Hr. simpl.
  rewrite without_with_metrics by done. rewrite without_filter.
  apply filter_Forall_id, Forall_forall. intros [k v] Hin Hk. simpl in Hk.
  apply Hr, own_property_None in Hk. apply Hk.
  apply list_elem_of_fmap. by exists (k, v).
Qed.

(** X26.  Metrics added to the rows are rendered: when the component
    has no configured columns, every metric name is among the rendered
    columns of the render that follows [addMetrics]. *)
Theorem addMetrics_then_render (g : Globals) (l : loc)
    (metricToFn : list (jsstring * metricFn))
    (isSelectedFn : option (row -> bool)) (w : World) (rs : list row) :
  row_bound g && metric_bound g && fn_bound g = true ->
  (forall entry r, entry ∈ metricToFn -> exists v, entry.2 r = Return v) ->
  arrays w !! l = Some rs ->
  rs <> [] ->
  columns (this w) = None ->
  exists w1 cols,
    addMetrics g l metricToFn w = (Normal tt, w1)
    /\ renderedColumns (this (snd (renderRows l isSelectedFn w1))) = Some cols
    /\ forall metric, metric ∈ metricToFn.*1 -> metric ∈ cols.
Proof.
  intros Hbound Htotal Hl Hne Hcolumns.
  destruct rs as [|r0 rs0]; [done|].
  set (w1 := with_array l (with_metrics metricToFn <$> r0 :: rs0) w).
  exists w1. eexists. split; [by apply addMetrics_run|].
  rewrite (renderRows_renderedColumns l isSelectedFn w1
             (with_metrics metricToFn r0) (with_metrics metricToFn <$> rs0))
    by apply lookup_insert_eq.
  split; [reflexivity|].
  pose proof (sorted_rows_perm (this w1)
                (with_metrics metricToFn r0 :: (with_metrics metricToFn <$> rs0)))
    as Hperm.
  unfold rendered_columns.
  change (columns (this w1)) with (columns (this w)). rewrite Hcolumns.
  destruct (sorted_rows (this w1) _) as [|row0 rest] eqn:Hsorted.
  { apply Permutation_length in Hperm. done. }
  assert (Hin : row0 ∈ with_metrics metricToFn <$> r0 :: rs0).
  { rewrite fmap_cons, <- Hperm. apply list_elem_of_here. }
  apply list_elem_of_fmap in Hin as (r & -> & Hr).
  intros metric Hmetric. simpl.
  destruct (decide (metric ∈ (with_metrics metricToFn r).*1)) as [Hyes|Hno];
    [done|].
  apply own_property_None in Hno.
  destruct (with_metrics_has metricToFn metric r Htotal Hmetric) as [v Hv].
  congruence.
Qed.

End MetricsAndColumns.

(** ** The properties at sample pages *)

Lemma formatters_cache_transparent_witness :
  Forall (fun fmt : value -> ST locales jsstring =>
            fst (fmt (VNum 1) {[ Some 2%nat := {| maximumFractionDigits := Some 2%nat;
                                                   minimumFractionDigits := Some 2%nat |} ]})
            = fst (fmt (VNum 1) ∅)
            /\ cache_wf
                 (snd (fmt (VNum 1)
                         {[ Some 2%nat := {| maximumFractionDigits := Some 2%nat;
                                              minimumFractionDigits := Some 2%nat |} ]})))
    (@builtins sample_host None).
Proof.
  apply (@formatters_cache_transparent sample_host).
  intros p l Hl. apply lookup_singleton_Some in Hl as [<- <-]. reflexivity.
Defined.

Lemma precision_out_of_range_witness :
  Forall (fun fmt : value -> option nat -> ST locales jsstring =>
            fmt (VNum 1) (Some 101%nat) ∅ = (Throw RangeError, ∅))
    [@formatCurrency sample_host; @formatPercent sample_host;
     @formatFixed sample_host].
Proof.
  apply (@precision_out_of_range sample_host (VNum 1) 101 ∅).
  - unfold fractionDigitsLimit. lia.
  - intros p l Hl. rewrite lookup_empty in Hl. discriminate Hl.
Defined.

Lemma formatCalibration_string_witness :
  @formatCalibration sample_host (VStr (js "12")) ∅ = (Throw TypeError, ∅)
  /\ exists text cache',
       @formatFixed2 sample_host (VStr (js "12")) ∅ = (Return text, cache').
Proof.
  apply (@formatCalibration_string sample_host (js "12") ∅). reflexivity.
Defined.

Lemma truncate_text_witness :
  @truncate sample_host (VStr (js "hello world")) 5
  = Return (js "hell" ++ [ELLIPSIS])
  /\ forall s, @truncate sample_host (VStr (js "hello world")) 5 = Return s ->
       (Z.of_nat (length s) <= 5)%Z.
Proof.
  apply (@truncate_text sample_host (js "hello world") 5). reflexivity.
Defined.




Lemma renderRows_unnamed_column_witness :
  exists w',
    @renderRows sample_host 0%nat None unnamed_page = (Throw TypeError, w')
    /\ thead (this w') = []
    /\ tbody (this w') = []
    /\ rows (this w') = Some 0%nat
    /\ renderedColumns (this w') = Some [js "a--b"]
    /\ arrays w' !! 0%nat = Some [ [(js "a--b", VNum 1)] ].
Proof.
  apply (@renderRows_unnamed_column sample_host 0%nat None unnamed_page
           [ [(js "a--b", VNum 1)] ]).
  - reflexivity.
  - discriminate.
  - intros col f Hcol Hf. vm_compute in Hcol.
    apply list_elem_of_singleton in Hcol. subst col.
    vm_compute in Hf. discriminate Hf.
  - vm_compute. reflexivity.
Defined.

Lemma renderRows_again_witness :
  arrays (snd (@renderRows sample_host 0%nat None
                 (snd (@renderRows sample_host 0%nat None sorted_page))))
  = arrays (snd (@renderRows sample_host 0%nat None sorted_page)).
Proof.
  apply (@renderRows_again sample_host 0%nat None None sorted_page two_rows
           [(js "column", js "c"); (js "order", js "asc")]).
  - reflexivity.
  - reflexivity.
  - left. repeat constructor.
Defined.

Lemma setSortOptions_then_render_witness :
  arrays (snd (@renderRows sample_host 0%nat None
                 (snd (setSortOptions by_c_ascending unsorted_page)))) !! 0%nat
  = Some [ [(js "c", VNum 1); (js "user-id", VStr (js "u8"))];
           [(js "c", VNum 2); (js "user-id", VStr (js "u7"))] ].
Proof.
  destruct (@setSortOptions_then_render sample_host by_c_ascending 0%nat None
              unsorted_page two_rows eq_refl) as (_ & _ & _ & _ & _ & Hsorted).
  apply (Hsorted [(js "column", js "c"); (js "order", js "asc")]).
  - reflexivity.
  - vm_compute. reflexivity.
Defined.

Lemma header_click_twice_witness :
  sortOptions (this (snd (onClick (TH 0) (snd (onClick (TH 0) sorted_by_a)))))
  = sortOptions (this sorted_by_a).
Proof.
  destruct (header_click_twice sorted_by_a [js "a"; js "b"] 0 (js "a") (js "asc")
              eq_refl eq_refl eq_refl (or_introl eq_refl)) as (_ & Hback & _).
  exact Hback.
Defined.

Lemma removeColumns_removes_witness :
  exists rs',
    removeColumns 0%nat [js "c"] unsorted_page
    = (Return tt, with_array 0%nat rs' unsorted_page)
    /\ length rs' = 2%nat
    /\ forall i r,
         two_rows !! i = Some r ->
         exists r', rs' !! i = Some r'
                    /\ own_property (js "c") r' = None
                    /\ own_property (js "user-id") r'
                       = own_property (js "user-id") r.
Proof.
  destruct (removeColumns_removes 0%nat [js "c"] unsorted_page two_rows eq_refl)
    as (rs' & Hrun & Hlen & Hrows).
  exists rs'. split; [exact Hrun|]. split; [exact Hlen|]. intros i r Hi.
  destruct (Hrows i r Hi) as (r' & Hr' & Hkeys & _).
  exists r'. split; [exact Hr'|].
  split; [exact (Hkeys (js "c"))|exact (Hkeys (js "user-id"))].
Defined.

Lemma removeColumns_set_witness :
  removeColumns 0%nat [js "c"; js "user-id"] unsorted_page
  = removeColumns 0%nat [js "user-id"; js "c"; js "c"] unsorted_page
  /\ snd (removeColumns 0%nat [js "user-id"; js "c"; js "c"]
            (snd (removeColumns 0%nat [js "c"; js "user-id"] unsorted_page)))
     = snd (removeColumns 0%nat [js "c"; js "user-id"] unsorted_page).
Proof.
  apply (removeColumns_set 0%nat [js "c"; js "user-id"]
           [js "user-id"; js "c"; js "c"] unsorted_page).
  intros c. rewrite !elem_of_cons. tauto.
Defined.

Lemma removeColumns_then_render_witness :
  exists r,
    r ∈ two_rows
    /\ renderedColumns
         (this (snd (@renderRows sample_host 0%nat None
                       (snd (removeColumns 0%nat [js "c"] unsorted_page)))))
       = Some (filter (fun k => k ∉ [js "c"]) (r.*1)).
Proof.
  apply (@removeColumns_then_render sample_host 0%nat [js "c"] None
           unsorted_page two_rows).
  - reflexivity.
  - discriminate.
  - reflexivity.
Defined.

Lemma renderRows_stable_witness :
  exists rs',
    arrays (snd (@renderRows sample_host 0%nat None
                   (page_with (sample_options by_c_ascending None) tied_rows)))
      !! 0%nat
    = Some rs'
    /\ List.filter holds_x rs'
       = [ [(js "c", VStr (js "x")); (js "n", VNum 1)];
           [(js "c", VStr (js "x")); (js "n", VNum 3)] ].
Proof.
  apply (@renderRows_stable sample_host 0%nat None
           (page_with (sample_options by_c_ascending None) tied_rows)
           tied_rows [(js "column", js "c"); (js "order", js "asc")] holds_x).
  - reflexivity.
  - reflexivity.
  - vm_compute. reflexivity.
  - intros r1 r2 H1 H2. unfold holds_x in H1, H2.
    change (@comparator sample_host (Some (js "asc")) (Some (js "c")) r1 r2
            = 0%Z).
    unfold comparator. rewrite bool_decide_eq_true_2 by reflexivity.
    destruct (get r1 (Some (js "c"))) as [| | |s1]; try discriminate H1.
    destruct (get r2 (Some (js "c"))) as [| | |s2]; try discriminate H2.
    apply bool_decide_eq_true_1 in H1, H2. subst s1 s2. reflexivity.
Defined.

Lemma renderRows_sort_column_absent_witness :
  arrays (snd (@renderRows sample_host 0%nat None
                 (page_with
                    (sample_options
                       (Some [(js "column", js "x"); (js "order", js "asc")])
                       None)
                    two_rows)))
  = arrays (page_with
              (sample_options
                 (Some [(js "column", js "x"); (js "order", js "asc")]) None)
              two_rows).
Proof.
  apply (@renderRows_sort_column_absent sample_host 0%nat None
           (page_with
              (sample_options
                 (Some [(js "column", js "x"); (js "order", js "asc")]) None)
              two_rows)
           two_rows [(js "column", js "x"); (js "order", js "asc")]).
  - reflexivity.
  - reflexivity.
  - repeat constructor.
Defined.

Lemma cell_click_after_removeColumns_witness :
  onClick (TD 1 0 false) (snd (removeColumns 0%nat [js "b"] shown_page))
  = (Return tt,
     with_event (cellClick (Some (js "b")) VUndefined (js "select"))
       (snd (removeColumns 0%nat [js "b"] shown_page))).
Proof.
  apply (cell_click_after_removeColumns 0%nat [js "b"] shown_page
           [js "a"; js "b"] [ [(js "a", VNum 1); (js "b", VNum 2)] ] 0 1
           [(js "a", VNum 1); (js "b", VNum 2)] (js "b") false);
    reflexivity.
Defined.

Lemma addMetrics_undeclared_witness :
  addMetrics module_globals 0%nat copy_of_c unsorted_page
  = (ReferenceError, unsorted_page).
Proof.
  apply (addMetrics_undeclared module_globals 0%nat copy_of_c unsorted_page
           two_rows).
  - reflexivity.
  - discriminate.
  - reflexivity.
Defined.

Lemma addMetrics_adds_witness :
  addMetrics page_globals 0%nat copy_of_c unsorted_page
  = (Normal tt,
     with_array 0%nat
       [ [(js "c", VNum 2); (js "user-id", VStr (js "u7")); (js "copy", VNum 2)];
         [(js "c", VNum 1); (js "user-id", VStr (js "u8")); (js "copy", VNum 1)] ]
       unsorted_page).
Proof.
  destruct (addMetrics_adds page_globals 0%nat copy_of_c unsorted_page two_rows)
    as [Hrun _].
  - reflexivity.
  - intros entry r Hin. apply list_elem_of_singleton in Hin. subst entry.
    eexists. reflexivity.
  - reflexivity.
  - exact Hrun.
Defined.

Lemma addMetrics_then_removeColumns_witness :
  exists w1,
    addMetrics page_globals 0%nat copy_of_c unsorted_page = (Normal tt, w1)
    /\ removeColumns 0%nat [js "copy"] w1 = (Return tt, unsorted_page).
Proof.
  apply (addMetrics_then_removeColumns page_globals 0%nat copy_of_c
           unsorted_page two_rows).
  - reflexivity.
  - intros entry r Hin. apply list_elem_of_singleton in Hin. subst entry.
    eexists. reflexivity.
  - reflexivity.
  - repeat constructor; intros k Hk; apply list_elem_of_singleton in Hk;
      subst k; reflexivity.
Defined.

Lemma addMetrics_then_render_witness :
  exists w1 cols,
    addMetrics page_globals 0%nat copy_of_c unsorted_page = (Normal tt, w1)
    /\ renderedColumns (this (snd (@renderRows sample_host 0%nat None w1)))
       = Some cols
    /\ forall metric, metric ∈ copy_of_c.*1 -> metric ∈ cols.
Proof.
  apply (@addMetrics_then_render sample_host page_globals 0%nat copy_of_c None
           unsorted_page two_rows).
  - reflexivity.
  - intros entry r Hin. apply list_elem_of_singleton in Hin. subst entry.
    eexists. reflexivity.
  - reflexivity.
  - discriminate.
  - reflexivity.
Defined.
